(** * Room view router and invite error reporting

    A shallow embedding of two modules of the chat client's UI layer:

    - [RoomInvite.js]: the failure-reporting step [_showAnyInviteErrors];
    - the [OpenRoomsStore] (room view router): its state, accessors and
      the action handler [__onDispatch].

    JavaScript objects that the router shares by reference (room view
    stores and their private dispatchers) live in an explicit heap; the
    router state only holds references to them. *)

From stdpp Require Import base numbers list strings gmap.
From Stdlib Require Import ZArith Lia.

(** ** JavaScript values *)

(** The values that occur in payload fields and store attributes.
    Objects are opaque and compared by reference. *)
Inductive jsval : Type :=
| JUndefined
| JNull
| JBool (b : bool)
| JStr (s : string)
| JObj (ref : nat).

#[global] Instance jsval_eq_dec : EqDecision jsval.
Proof. solve_decision. Defined.

(** [a === b] *)
Definition strict_eq (a b : jsval) : bool := bool_decide (a = b).

(** [a !== b] *)
Definition strict_neq (a b : jsval) : bool := negb (strict_eq a b).

(** Truthiness, as tested by [if (v)], [!v] and [&&]. *)
Definition truthy (v : jsval) : bool :=
  match v with
  | JUndefined | JNull => false
  | JBool b => b
  | JStr s => negb (String.eqb s "")
  | JObj _ => true
  end.

(** ** RoomInvite.js *)

Module RoomInvite.

(** An Invite Result Set is the object [addrs]: its own properties, in
    the order [Object.keys] enumerates them.  Keys are addresses, values
    the completion state strings. *)
Definition ResultSet := list (string * string).

Definition Object_keys (o : ResultSet) : list string := o.*1.

(** Property read [o[a]]; [None] stands for [undefined]. *)
Fixpoint get (o : ResultSet) (a : string) : option string :=
  match o with
  | [] => None
  | (k, v) :: rest => if String.eqb k a then Some v else get rest a
  end.

(** [o[a] === "error"] *)
Definition is_error (o : ResultSet) (a : string) : bool :=
  match get o a with
  | Some v => String.eqb v "error"
  | None => false
  end.

(** The outcome [_showAnyInviteErrors] compares against. *)
Definition entry_is_error (kv : string * string) : bool :=
  String.eqb kv.2 "error".

(** The number of addresses whose outcome is [error]. *)
Definition count_errors (o : ResultSet) : nat :=
  length (List.filter entry_is_error o).

(** The parts of the [MultiInviter] that the reporting step reads. *)
Record Inviter := {
  fatal : bool;
  getErrorText : string → string;
}.

Record Room := { name : string }.

(** A thrown or rejected error; [message] may be missing. *)
Record JsError := { message : option string }.

(** One call of [Modal.createTrackedDialog]. *)
Record Dialog := {
  analyticsAction : string;
  analyticsInfo : string;
  component : string;
  title : string;
  description : string;
}.

(** The modal layer, as the sequence of dialogs created so far. *)
Definition Modal := list Dialog.

(** Modelled from the spec: [Modal.js] is not among the sources at hand.
    The modal presentation collaborator displays a titled, described
    dialog; creating one adds it to the dialogs shown. *)
Definition createTrackedDialog (d : Dialog) (m : Modal) : Modal := m ++ [d].

(** [<br />] used as the separator of [Array.prototype.join], which
    converts its argument with [ToString]. *)
Definition br : string := "[object Object]".

Section report.

(** [languageHandler._t]: message key and named substitutions. *)
Variable _t : string → list (string * string) → string.

(** The [TypeError] that reading [name] of [null] throws. *)
Variable null_name_error : JsError.

Definition failedUsers (addrs : ResultSet) : list string :=
  List.filter (is_error addrs) (Object_keys addrs).

(** The loop filling [errorList]. *)
Fixpoint errorList_loop (addrs : ResultSet) (inviter : Inviter)
    (failed : list string) (errorList : list string) : list string :=
  match failed with
  | [] => errorList
  | addr :: rest =>
      if is_error addrs addr then
        let reason := getErrorText inviter addr in
        errorList_loop addrs inviter rest
          (errorList ++ [addr +:+ ": " +:+ reason])
      else errorList_loop addrs inviter rest errorList
  end.

(** The two dialogs the step can create. *)
Definition fatal_report (room : Room) (text : string) : Dialog :=
  {| analyticsAction := "Failed to invite users to the room";
     analyticsInfo := "";
     component := "dialogs.ErrorDialog";
     title := _t "Failed to invite users to the room:"
                [("roomName", name room)];
     description := text |}.

Definition list_report (room : Room) (errorList : list string) : Dialog :=
  {| analyticsAction := "Failed to invite the following users to the room";
     analyticsInfo := "";
     component := "dialogs.ErrorDialog";
     title := _t
       "Failed to invite the following users to the %(roomName)s room:"
       [("roomName", name room)];
     description := String.concat br errorList |}.

(** [room] is what the caller's [getRoom] returned, [None] for [null];
    [modal] is threaded through to record the dialog created, if any.
    Either dialog's properties are built before the dialog is created,
    and building the title reads [room.name]: for a missing room that
    read throws, and the step ends there with [inl]. *)
Definition _showAnyInviteErrors (addrs : ResultSet) (room : option Room)
    (inviter : Inviter) (modal : Modal) : (JsError + ResultSet) * Modal :=
  let failed := failedUsers addrs in
  if (length failed =? 1)%nat && fatal inviter then
    match room, failed with
    | Some room, first :: _ =>
        (inr addrs,
         createTrackedDialog
           (fatal_report room (getErrorText inviter first)) modal)
    | Some _, [] => (inr addrs, modal) (* excluded by [length failed = 1] *)
    | None, _ => (inl null_name_error, modal)
    end
  else
    let errorList := errorList_loop addrs inviter failed [] in
    if (0 <? length errorList)%nat then
      match room with
      | Some room =>
          (inr addrs, createTrackedDialog (list_report room errorList) modal)
      | None => (inl null_name_error, modal)
      end
    else (inr addrs, modal).

(** The line the report shows for one failed address. *)
Definition error_line (inviter : Inviter) (addr : string) : string :=
  addr +:+ ": " +:+ getErrorText inviter addr.

End report.

(** *** Starting chats and inviting into rooms *)

(** An entry of the address picker's result; [address] is the one field
    this file reads. *)
Record PickedAddress := { address : string }.

(** A room as the client returns it: the room object passed on to the
    reporting step, and the user's own membership in it. *)
Record ClientRoom := { room_object : Room; getMyMembership : string }.

(** Calls to collaborators, in program order: the reuse chooser
    ([ChatCreateOrReuseDialog]), [createRoom] with or without a
    [dmUserId], and [inviteMultipleToRoom]. *)
Inductive Call :=
| ShowCreateOrReuse (userId : string)
| CreateRoom (dmUserId : option string)
| InviteMultiple (roomId : string) (addrs : list string).

Section orchestrator.

Variable _t : string → list (string * string) → string.

(** [getAddressType] of [UserAddress.js]; [None] stands for [null]. *)
Variable getAddressType : string → option string.

(** [new DMRoomMap(client).getDMRoomsForUserId]. *)
Variable getDMRoomsForUserId : string → list string.

(** [MatrixClientPeg.get().getRoom]; [None] stands for [null]. *)
Variable getRoom : string → option ClientRoom.

(** The [TypeError] that reading [name] of [null] throws. *)
Variable null_name_error : JsError.

Definition _isDmChat (addrTexts : list string) : bool :=
  (length addrTexts =? 1)%nat &&
  match head addrTexts with
  | Some first => bool_decide (getAddressType first = Some "mx-user-id")
  | None => false
  end.

Definition _getDirectMessageRooms (addr : string) : list string :=
  List.filter
    (λ dmRoom,
       match getRoom dmRoom with
       | Some room => String.eqb (getMyMembership room) "join"
       | None => false
       end)
    (getDMRoomsForUserId addr).

(** The calls [_onStartChatFinished] makes before it returns.  (Both
    uses of [addrTexts[0]] are behind a test that the list has one
    element.) *)
Definition _onStartChatFinished (shouldInvite : bool)
    (addrs : list PickedAddress) : list Call :=
  if negb shouldInvite then []
  else
    let addrTexts := address <$> addrs in
    if _isDmChat addrTexts then
      match addrTexts with
      | first :: _ =>
          let rooms := _getDirectMessageRooms first in
          if (0 <? length rooms)%nat
          then [ShowCreateOrReuse first]
          else [CreateRoom (Some first)]
      | [] => []
      end
    else if (length addrTexts =? 1)%nat then
      match addrTexts with
      | first :: _ => [CreateRoom (Some first)]
      | [] => []
      end
    else [CreateRoom None].

Definition _onRoomInviteFinished (roomId : string) (shouldInvite : bool)
    (addrs : list PickedAddress) : list Call :=
  if negb shouldInvite then []
  else [InviteMultiple roomId (address <$> addrs)].

(** [err && err.message ? err.message : _t("Operation failed")] *)
Definition error_description (err : option JsError) : string :=
  match err with
  | Some e =>
      match message e with
      | Some m =>
          if negb (String.eqb m "") then m else _t "Operation failed" []
      | None => _t "Operation failed" []
      end
  | None => _t "Operation failed" []
  end.

(** The dialog of the [catch] handlers; [key] is "Failed to invite user"
    for the direct chats and "Failed to invite" for the invite paths. *)
Definition failure_report (key : string) (err : option JsError) : Dialog :=
  {| analyticsAction := key;
     analyticsInfo := "";
     component := "dialogs.ErrorDialog";
     title := _t key [];
     description := error_description err |}.

(** What the user has been shown once an invite batch into [roomId] has
    settled with [states]: the [then] that reports the failures, and the
    [catch] behind it. *)
Definition invites_settled (states : ResultSet) (roomId : string)
    (inviter : Inviter) (modal : Modal) : Modal :=
  let room := room_object <$> getRoom roomId in
  match _showAnyInviteErrors _t null_name_error states room inviter modal with
  | (inr _, modal') => modal'
  | (inl err, modal') =>
      createTrackedDialog (failure_report "Failed to invite" (Some err))
        modal'
  end.

End orchestrator.

(** A small result set used to exercise the theorems. *)
Definition sample_addrs : ResultSet :=
  [ ("@alice:example.org", "invited");
    ("bob@example.org", "error");
    ("@carol:example.org", "error") ].

Definition sample_single : ResultSet :=
  [ ("@alice:example.org", "error"); ("@dave:example.org", "invited") ].

Definition sample_inviter (is_fatal : bool) : Inviter :=
  {| fatal := is_fatal;
     getErrorText := λ a, "could not invite " +:+ a |}.

Definition sample_room : Room := {| name := "Lobby" |}.

Definition sample_t (key : string) (_ : list (string * string)) : string :=
  key.

(** A client that knows three rooms; the user has left the first. *)
Definition sample_getAddressType (a : string) : option string :=
  if String.prefix "@" a then Some "mx-user-id" else Some "email".

Definition sample_getDMRoomsForUserId (a : string) : list string :=
  if String.eqb a "@alice:example.org"
  then [ "!dm1:example.org"; "!dm2:example.org"; "!gone:example.org" ]
  else [].

Definition sample_getRoom (r : string) : option ClientRoom :=
  if String.eqb r "!dm1:example.org" then
    Some {| room_object := {| name := "Alice (old)" |};
            getMyMembership := "leave" |}
  else if String.eqb r "!dm2:example.org" then
    Some {| room_object := {| name := "Alice" |};
            getMyMembership := "join" |}
  else if String.eqb r "!lobby:example.org" then
    Some {| room_object := sample_room; getMyMembership := "join" |}
  else None.

Definition sample_null_name_error : JsError :=
  {| message := Some "Cannot read property 'name' of null" |}.

End RoomInvite.

(** ** OpenRoomsStore (the room view router) *)

Module OpenRoomsStore.

(** A dispatched action.  A field the payload does not carry reads as
    [JUndefined]. *)
Record Payload := {
  action : string;
  room_id : jsval;
  room_alias : jsval;
  event_id : jsval;
  highlighted : jsval;
  auto_join : jsval;
  oob_data : jsval;
  event : jsval;
  err : jsval;
  payload_group_id : jsval;
}.

#[global] Instance Payload_eq_dec : EqDecision Payload.
Proof. solve_decision. Defined.

(** A member room as returned by [GroupStore.getGroupRooms]. *)
Record GroupRoom := { roomId : jsval }.

(** References to heap objects. *)
Definition loc := nat.

(** A Room View Entry [{store, dispatcher}]: two object references. *)
Record Entry := { store : loc; dispatcher : loc }.

#[global] Instance Entry_eq_dec : EqDecision Entry.
Proof. solve_decision. Defined.

(** [this._state].  [currentIndex] is [null] or a number. *)
Record State := {
  rooms : list Entry;
  currentIndex : option Z;
  group_id : jsval;
}.

(** The argument of [_setState]: the fields the object literal names. *)
Record StatePatch := {
  set_rooms : option (list Entry);
  set_currentIndex : option (option Z);
  set_group_id : option jsval;
}.

(** [Object.assign(state, newState)] *)
Definition Object_assign (st : State) (newState : StatePatch) : State :=
  {| rooms := default (rooms st) (set_rooms newState);
     currentIndex := default (currentIndex st) (set_currentIndex newState);
     group_id := default (group_id st) (set_group_id newState) |}.

(** What the router does to the outside, in program order. *)
Inductive Effect :=
| EmitChange
| Unregister (d : loc) (token : loc)
| PrivateDispatch (d : loc) (payload : Payload)
| GlobalDispatch (payload : Payload)
| GetRoomIdForAlias (payload : Payload).

(** [array[i]] for a numeric index; out of range reads [undefined]. *)
Definition js_index {A} (l : list A) (i : Z) : option A :=
  if (i <? 0)%Z then None else l !! Z.to_nat i.

(** [array.findIndex(f)], scanning from index [k]. *)
Fixpoint findIndex_from {A} (f : A → bool) (l : list A) (k : Z) : Z :=
  match l with
  | [] => (-1)%Z
  | x :: rest => if f x then k else findIndex_from f rest (k + 1)%Z
  end.

Definition findIndex {A} (f : A → bool) (l : list A) : Z :=
  findIndex_from f l 0%Z.

(** *** Vocabulary of the properties *)

(** The state of a router without entries. *)
Definition empty_state : State :=
  {| rooms := []; currentIndex := None; group_id := JNull |}.

(** Without a current index the router is empty; with one, the index is
    within [rooms], or it is 0 over no rooms at all. *)
Definition index_ok (st : State) : Prop :=
  match currentIndex st with
  | None => rooms st = [] ∧ group_id st = JNull
  | Some i =>
      (0 ≤ i < Z.of_nat (length (rooms st)))%Z ∨ (i = 0%Z ∧ rooms st = [])
  end.

(** The entry allocated for the [i]-th member room when the next unused
    reference is [n]. *)
Definition grid_entry (n : loc) (i : nat) : Entry :=
  {| store := n + 2 * i + 1; dispatcher := n + 2 * i |}.

(** The [view_room] that [_resolveRoomAlias] dispatches once the alias
    lookup has answered with [result_room_id]. *)
Definition resolved_view_room (payload : Payload) (result_room_id : jsval)
    : Payload :=
  {| action := "view_room";
     room_id := result_room_id;
     event_id := event_id payload;
     highlighted := highlighted payload;
     room_alias := room_alias payload;
     auto_join := auto_join payload;
     oob_data := oob_data payload;
     event := JUndefined; err := JUndefined;
     payload_group_id := JUndefined |}.

(** The test that makes the [view_room] case request an alias lookup. *)
Definition needs_alias_lookup (payload : Payload) : bool :=
  negb (truthy (room_id payload)) && truthy (room_alias payload).

(** The effect of unregistering one entry's store. *)
Definition unregistered (e : Entry) : Effect :=
  Unregister (dispatcher e) (store e).

Section router.

(** The [RoomViewStore] collaborator: the state of one store object, the
    state a newly constructed store starts in, the handler it registers
    with its dispatcher, and its two getters. *)
Variable RoomViewStore : Type.
Variable newStore : RoomViewStore.
Variable reduce : Payload → RoomViewStore → RoomViewStore.
Variable getRoomId : RoomViewStore → jsval.
Variable getRoomAlias : RoomViewStore → jsval.

(** The router object together with the objects it allocates.
    [stores] holds the room view stores; [dispatchers] holds for each
    private [MatrixDispatcher] the store whose handler is registered
    with it, if any; [next] is the next unused reference; [trace]
    records the effects performed so far. *)
Record World := {
  _state : State;
  _forwardingEvent : jsval;
  stores : gmap loc RoomViewStore;
  dispatchers : gmap loc (option loc);
  next : loc;
  trace : list Effect;
}.

Definition with_state (st : State) (w : World) : World :=
  {| _state := st; _forwardingEvent := _forwardingEvent w;
     stores := stores w; dispatchers := dispatchers w;
     next := next w; trace := trace w |}.

Definition with_forwardingEvent (e : jsval) (w : World) : World :=
  {| _state := _state w; _forwardingEvent := e;
     stores := stores w; dispatchers := dispatchers w;
     next := next w; trace := trace w |}.

Definition with_stores (h : gmap loc RoomViewStore) (w : World) : World :=
  {| _state := _state w; _forwardingEvent := _forwardingEvent w;
     stores := h; dispatchers := dispatchers w;
     next := next w; trace := trace w |}.

Definition with_dispatchers (h : gmap loc (option loc)) (w : World)
    : World :=
  {| _state := _state w; _forwardingEvent := _forwardingEvent w;
     stores := stores w; dispatchers := h;
     next := next w; trace := trace w |}.

Definition with_next (n : loc) (w : World) : World :=
  {| _state := _state w; _forwardingEvent := _forwardingEvent w;
     stores := stores w; dispatchers := dispatchers w;
     next := n; trace := trace w |}.

Definition log (e : Effect) (w : World) : World :=
  {| _state := _state w; _forwardingEvent := _forwardingEvent w;
     stores := stores w; dispatchers := dispatchers w;
     next := next w; trace := trace w ++ [e] |}.

(** The constructor. *)
Definition constructor : World :=
  {| _state := {| rooms := []; currentIndex := None; group_id := JNull |};
     _forwardingEvent := JNull;
     stores := ∅; dispatchers := ∅; next := 0; trace := [] |}.

(** *** Heap objects *)

(** Modelled from the spec: the [MatrixDispatcher] class is not among
    the sources at hand.  A private dispatcher is a publish/subscribe
    channel owned by one entry; [new MatrixDispatcher()] allocates one
    with no handler registered. *)
Definition new_MatrixDispatcher (w : World) : loc * World :=
  let d := next w in
  (d, with_next (S d) (with_dispatchers (<[d := None]> (dispatchers w)) w)).

(** Modelled from the spec: the [RoomViewStore] class is not among the
    sources at hand.  An entry's dispatcher is 1:1 with its store:
    [new RoomViewStore(dispatcher)] allocates a store in its initial
    state and registers its handler with [dispatcher]. *)
Definition new_RoomViewStore (d : loc) (w : World) : loc * World :=
  let s := next w in
  (s, with_next (S s)
        (with_dispatchers (<[d := Some s]> (dispatchers w))
           (with_stores (<[s := newStore]> (stores w)) w))).

(** Modelled from the spec: [store.getDispatchToken()] comes from the
    store base class, not among the sources at hand; it identifies the
    store's registration with its dispatcher, here by the store that
    made it. *)
Definition getDispatchToken (s : loc) : loc := s.

(** Modelled from the spec: [dispatcher.unregister(token)] of the missing
    [MatrixDispatcher]; teardown "unregisters every entry's store from
    its own private dispatcher". *)
Definition unregister (d token : loc) (w : World) : World :=
  let w' := log (Unregister d token) w in
  match dispatchers w !! d with
  | Some (Some s) =>
      if bool_decide (s = token)
      then with_dispatchers (<[d := None]> (dispatchers w)) w'
      else w'
  | _ => w'
  end.

(** Modelled from the spec: [dispatcher.dispatch(payload, true)] of the
    missing [MatrixDispatcher], a "synchronous internal dispatch": the
    registered store handles the payload before the call returns. *)
Definition dispatch (d : loc) (payload : Payload) (w : World) : World :=
  let w' := log (PrivateDispatch d payload) w in
  match dispatchers w !! d with
  | Some (Some s) => with_stores (alter (reduce payload) s (stores w)) w'
  | _ => w'
  end.

(** Reading through a store reference. *)
Definition deref (w : World) (r : option loc) : option RoomViewStore :=
  match r with
  | Some s => stores w !! s
  | None => None
  end.

(** *** The source's functions *)

Definition matchesRoom (payload : Payload)
    (roomStore : option RoomViewStore) : bool :=
  match roomStore with
  | None => false
  | Some roomStore =>
      if truthy (room_alias payload)
      then strict_eq (room_alias payload) (getRoomAlias roomStore)
      else strict_eq (room_id payload) (getRoomId roomStore)
  end.

Definition getRoomStores (w : World) : list loc :=
  store <$> rooms (_state w).

Definition _getCurrentRoom (w : World) : option Entry :=
  match currentIndex (_state w) with
  | Some index =>
      if (index <? Z.of_nat (length (rooms (_state w))))%Z
      then js_index (rooms (_state w)) index
      else None
  | None => None
  end.

Definition getCurrentRoomStore (w : World) : option loc :=
  match _getCurrentRoom w with
  | Some currentRoom => Some (store currentRoom)
  | None => None
  end.

Definition _setState (newState : StatePatch) (w : World) : World :=
  log EmitChange (with_state (Object_assign (_state w) newState) w).

Definition _roomIndex (payload : Payload) (w : World) : Z :=
  findIndex (λ r, matchesRoom payload (deref w (Some (store r))))
    (rooms (_state w)).

Definition _hasRoom (payload : Payload) (w : World) : bool :=
  negb (_roomIndex payload w =? -1)%Z.

(** (The read of [this._state.room] at its start is unused.) *)
Definition _cleanupRooms (w : World) : World :=
  let w1 :=
    foldl (λ w room,
             unregister (dispatcher room) (getDispatchToken (store room)) w)
      w (rooms (_state w)) in
  _setState {| set_rooms := Some [];
               set_group_id := Some JNull;
               set_currentIndex := Some None |} w1.

Definition _createRoom (w : World) : World :=
  let '(dispatcher, w1) := new_MatrixDispatcher w in
  let '(store, w2) := new_RoomViewStore dispatcher w1 in
  _setState {| set_rooms :=
                 Some [ {| store := store; dispatcher := dispatcher |} ];
               set_currentIndex := Some (Some 0%Z);
               set_group_id := None |} w2.

Definition _forwardAction (payload : Payload) (w : World) : World :=
  match _getCurrentRoom w with
  | Some currentRoom => dispatch (dispatcher currentRoom) payload w
  | None => w
  end.

(** [_resolveRoomAlias] up to its [await]: the lookup is requested. *)
Definition _resolveRoomAlias (payload : Payload) (w : World) : World :=
  log (GetRoomIdForAlias payload) w.

(** [_resolveRoomAlias] resumed with the lookup's result. *)
Definition _resolveRoomAlias_resolved (payload : Payload)
    (result_room_id : jsval) (w : World) : World :=
  log (GlobalDispatch
         {| action := "view_room";
            room_id := result_room_id;
            event_id := event_id payload;
            highlighted := highlighted payload;
            room_alias := room_alias payload;
            auto_join := auto_join payload;
            oob_data := oob_data payload;
            event := JUndefined; err := JUndefined;
            payload_group_id := JUndefined |}) w.

Definition view_room_error (payload : Payload) (e : jsval) : Payload :=
  {| action := "view_room_error";
     room_id := JNull;
     room_alias := room_alias payload;
     err := e;
     event_id := JUndefined; highlighted := JUndefined;
     auto_join := JUndefined; oob_data := JUndefined;
     event := JUndefined; payload_group_id := JUndefined |}.

(** [_resolveRoomAlias] resumed in its [catch] clause. *)
Definition _resolveRoomAlias_rejected (payload : Payload) (e : jsval)
    (w : World) : World :=
  _forwardAction (view_room_error payload e) w.

Definition _setCurrentGroupRoom (index : Z) (w : World) : World :=
  _setState {| set_currentIndex := Some (Some index);
               set_rooms := None; set_group_id := None |} w.

(** *** The action handler *)

(** The payload that sets the room id of a new grid store. *)
Definition set_room_id (room : GroupRoom) : Payload :=
  {| action := "view_room";
     room_id := roomId room;
     room_alias := JUndefined; event_id := JUndefined;
     highlighted := JUndefined; auto_join := JUndefined;
     oob_data := JUndefined; event := JUndefined;
     err := JUndefined; payload_group_id := JUndefined |}.

(** The [rooms.map] callback of the [view_group_grid] case, applied to
    the group's rooms from left to right. *)
Fixpoint makeRoomStores (groupRooms : list GroupRoom) (w : World)
    : list Entry * World :=
  match groupRooms with
  | [] => ([], w)
  | room :: rest =>
      let '(dispatcher, w1) := new_MatrixDispatcher w in
      let '(store, w2) := new_RoomViewStore dispatcher w1 in
      let w3 := dispatch dispatcher (set_room_id room) w2 in
      let '(roomStores, w4) := makeRoomStores rest w3 in
      ({| store := store; dispatcher := dispatcher |} :: roomStores, w4)
  end.

Definition send_event (payload : Payload) (forwardingEvent : jsval)
    : Payload :=
  {| action := "send_event";
     room_id := room_id payload;
     event := forwardingEvent;
     room_alias := JUndefined; event_id := JUndefined;
     highlighted := JUndefined; auto_join := JUndefined;
     oob_data := JUndefined; err := JUndefined;
     payload_group_id := JUndefined |}.

Definition case_view_room (payload : Payload) (w : World) : World :=
  let w :=
    if negb (truthy (room_id payload)) && truthy (room_alias payload)
    then _resolveRoomAlias payload w
    else w in
  let currentStore := getCurrentRoomStore w in
  let w :=
    if matchesRoom payload (deref w currentStore) then
      if _hasRoom payload w then
        let roomIndex := _roomIndex payload w in
        _setState {| set_currentIndex := Some (Some roomIndex);
                     set_rooms := None; set_group_id := None |} w
      else _cleanupRooms w
    else w in
  let w :=
    if negb (bool_decide (is_Some (getCurrentRoomStore w)))
    then _createRoom w
    else w in
  let w := _forwardAction payload w in
  if truthy (_forwardingEvent w) then
    with_forwardingEvent JNull
      (log (GlobalDispatch (send_event payload (_forwardingEvent w))) w)
  else w.

Definition case_view_group_grid (getGroupRooms : jsval → list GroupRoom)
    (payload : Payload) (w : World) : World :=
  if strict_neq (payload_group_id payload) (group_id (_state w)) then
    let w := _cleanupRooms w in
    let rooms := getGroupRooms (payload_group_id payload) in
    let '(roomStores, w) := makeRoomStores rooms w in
    let w :=
      _setState {| set_rooms := Some roomStores;
                   set_group_id := Some (payload_group_id payload);
                   set_currentIndex := None |} w in
    _setCurrentGroupRoom 0 w
  else w.

(** The actions forwarded unchanged to the current entry. *)
Definition passthrough_actions : list string :=
  [ "will_join"; "cancel_join"; "join_room"; "join_room_error";
    "on_logged_out"; "reply_to_event"; "open_room_settings";
    "close_settings" ].

(** [__onDispatch(payload)].  [getGroupRooms] is the answer
    [GroupStore.getGroupRooms] gives while this action is handled. *)
Definition __onDispatch (getGroupRooms : jsval → list GroupRoom)
    (payload : Payload) (w : World) : World :=
  if String.eqb (action payload) "view_room" then
    case_view_room payload w
  else if String.eqb (action payload) "view_my_groups"
       || String.eqb (action payload) "view_group" then
    _cleanupRooms (_forwardAction payload w)
  else if bool_decide (action payload ∈ passthrough_actions) then
    _forwardAction payload w
  else if String.eqb (action payload) "forward_event" then
    with_forwardingEvent (event payload) w
  else if String.eqb (action payload) "view_group_grid" then
    case_view_group_grid getGroupRooms payload w
  else w.

(** Every reference in use lies below [next]. *)
Definition allocated (w : World) : Prop :=
  (∀ l : loc, is_Some (stores w !! l) → l < next w) ∧
  (∀ l : loc, is_Some (dispatchers w !! l) → l < next w) ∧
  (∀ e, e ∈ rooms (_state w) →
        store e < next w ∧ dispatcher e < next w).

(** Every entry's dispatcher has the entry's own store registered, the
    store exists, and no two entries share a dispatcher or a store. *)
Definition wired (w : World) : Prop :=
  NoDup (dispatcher <$> rooms (_state w)) ∧
  NoDup (store <$> rooms (_state w)) ∧
  (∀ e, e ∈ rooms (_state w) →
        dispatchers w !! dispatcher e = Some (Some (store e)) ∧
        is_Some (stores w !! store e)).

(** What [makeRoomStores] returns for [members] when started in [w]. *)
Definition makeRoomStores_post (members : list GroupRoom) (w : World)
    (r : list Entry * World) : Prop :=
  r.1 = imap (λ i _, grid_entry (next w) i) members ∧
  next r.2 = next w + 2 * length members ∧
  _state r.2 = _state w ∧
  _forwardingEvent r.2 = _forwardingEvent w ∧
  (∀ i room, members !! i = Some room →
     stores r.2 !! (next w + 2 * i + 1) =
       Some (reduce (set_room_id room) newStore) ∧
     dispatchers r.2 !! (next w + 2 * i) = Some (Some (next w + 2 * i + 1))) ∧
  (∀ l, l < next w →
     stores r.2 !! l = stores w !! l ∧
     dispatchers r.2 !! l = dispatchers w !! l) ∧
  trace r.2 =
    trace w ++
    imap (λ i room, PrivateDispatch (next w + 2 * i) (set_room_id room))
      members.

(** *** Reachable router states *)

(** The worlds the router can be in: after its construction, after
    handling one more dispatched action, or after a pending alias
    lookup has failed or succeeded. *)
Inductive reachable : World → Prop :=
| reachable_constructor : reachable constructor
| reachable_dispatch getGroupRooms payload w :
    reachable w → reachable (__onDispatch getGroupRooms payload w)
| reachable_alias_rejected payload e w :
    reachable w → reachable (_resolveRoomAlias_rejected payload e w)
| reachable_alias_resolved payload result_room_id w :
    reachable w →
    reachable (_resolveRoomAlias_resolved payload result_room_id w).

End router.

Arguments _state {_} _.
Arguments _forwardingEvent {_} _.
Arguments stores {_} _.
Arguments dispatchers {_} _.
Arguments next {_} _.
Arguments trace {_} _.
Arguments with_state {_} _ _.
Arguments with_forwardingEvent {_} _ _.
Arguments with_stores {_} _ _.
Arguments with_dispatchers {_} _ _.
Arguments with_next {_} _ _.
Arguments log {_} _ _.
Arguments constructor {_}.
Arguments new_MatrixDispatcher {_} _.
Arguments new_RoomViewStore {_} _ _ _.
Arguments unregister {_} _ _ _.
Arguments dispatch {_} _ _ _ _.
Arguments deref {_} _ _.
Arguments matchesRoom {_} _ _ _ _.
Arguments getRoomStores {_} _.
Arguments _getCurrentRoom {_} _.
Arguments getCurrentRoomStore {_} _.
Arguments _setState {_} _ _.
Arguments _roomIndex {_} _ _ _ _.
Arguments _hasRoom {_} _ _ _ _.
Arguments _cleanupRooms {_} _.
Arguments _createRoom {_} _ _.
Arguments _forwardAction {_} _ _ _.
Arguments _resolveRoomAlias {_} _ _.
Arguments _resolveRoomAlias_resolved {_} _ _ _.
Arguments _resolveRoomAlias_rejected {_} _ _ _ _.
Arguments _setCurrentGroupRoom {_} _ _.
Arguments makeRoomStores {_} _ _ _ _.
Arguments case_view_room {_} _ _ _ _ _ _.
Arguments case_view_group_grid {_} _ _ _ _ _.
Arguments __onDispatch {_} _ _ _ _ _ _ _.
Arguments reachable {_} _ _ _ _ _.
Arguments makeRoomStores_post {_} _ _ _ _ _.
Arguments allocated {_} _.
Arguments wired {_} _.

End OpenRoomsStore.

(** ** A concrete room view store *)

Module SimpleStore.
Import OpenRoomsStore.

(** Modelled from the spec: the [RoomViewStore] class is not part of the
    sources at hand.  The spec treats it as an opaque per-room state
    holder whose store "reflects its corresponding room id" once a
    [view_room] has been dispatched to it; this model keeps the room id
    and alias of the last [view_room] it handled and ignores every other
    action. *)
Record t := { getRoomId : jsval; getRoomAlias : jsval }.

Definition initial : t := {| getRoomId := JNull; getRoomAlias := JNull |}.

Definition reduce (payload : Payload) (s : t) : t :=
  if String.eqb (action payload) "view_room"
  then {| getRoomId := room_id payload;
          getRoomAlias := room_alias payload |}
  else s.

Definition World := World t.
Definition constructor : World := constructor.
Definition __onDispatch :=
  __onDispatch initial reduce getRoomId getRoomAlias.
Definition reachable := reachable initial reduce getRoomId getRoomAlias.

Definition view_room (id : string) : Payload :=
  {| action := "view_room"; room_id := JStr id; room_alias := JUndefined;
     event_id := JUndefined; highlighted := JUndefined;
     auto_join := JUndefined; oob_data := JUndefined;
     event := JUndefined; err := JUndefined;
     payload_group_id := JUndefined |}.

Definition view_group_grid (g : string) : Payload :=
  {| action := "view_group_grid"; room_id := JUndefined;
     room_alias := JUndefined;
     event_id := JUndefined; highlighted := JUndefined;
     auto_join := JUndefined; oob_data := JUndefined;
     event := JUndefined; err := JUndefined;
     payload_group_id := JStr g |}.

(** Concrete traces. *)

(** A group without member rooms, and one with two. *)
Definition no_rooms : jsval → list GroupRoom := λ _, [].

Definition two_rooms : jsval → list GroupRoom :=
  λ _, [ {| roomId := JStr "!a:example.org" |};
         {| roomId := JStr "!b:example.org" |} ].

Definition view_by_alias : Payload :=
  {| action := "view_room"; room_id := JUndefined;
     room_alias := JStr "#lobby:example.org";
     event_id := JUndefined; highlighted := JUndefined;
     auto_join := JUndefined; oob_data := JUndefined;
     event := JUndefined; err := JUndefined;
     payload_group_id := JUndefined |}.

Definition after_empty_grid : World :=
  __onDispatch no_rooms
    (view_group_grid "+g:example.org") constructor.

Definition after_grid : World :=
  __onDispatch two_rooms
    (view_group_grid "+g:example.org") constructor.

Definition after_view_room : World :=
  __onDispatch no_rooms
    (view_room "!a:example.org") constructor.

(** Payloads that carry an action name and, at most, an event. *)
Definition with_event (a : string) (ev : jsval) : Payload :=
  {| action := a; room_id := JUndefined; room_alias := JUndefined;
     event_id := JUndefined; highlighted := JUndefined;
     auto_join := JUndefined; oob_data := JUndefined;
     event := ev; err := JUndefined;
     payload_group_id := JUndefined |}.

Definition forward_event : Payload := with_event "forward_event" (JObj 3).

Definition will_join : Payload := with_event "will_join" JUndefined.

Definition view_group : Payload := with_event "view_group" JUndefined.

End SimpleStore.


(** * Properties *)

(** ** JavaScript values *)

Lemma strict_eq_true a b : strict_eq a b = true ↔ a = b.
Proof. unfold strict_eq. apply bool_decide_eq_true. Qed.

Lemma strict_neq_false a b : strict_neq a b = false ↔ a = b.
Proof.
  unfold strict_neq. rewrite negb_false_iff. apply strict_eq_true.
Qed.

Lemma strict_neq_true a b : strict_neq a b = true ↔ a ≠ b.
Proof.
  unfold strict_neq, strict_eq. rewrite negb_true_iff.
  apply bool_decide_eq_false.
Qed.

(** ** The failure-reporting step *)

Module RoomInviteFacts.
Import RoomInvite.

Section facts.

Variable _t : string → list (string * string) → string.

Lemma get_in_keys o a v : get o a = Some v → a ∈ Object_keys o.
Proof.
  induction o as [|[k w] rest IH]; simpl; [done|].
  destruct (String.eqb_spec k a) as [->|Hne]; intros H.
  - left.
  - right. by apply IH.
Qed.

(** With distinct keys, every entry is what a property read returns. *)
Lemma get_entry o k v :
  NoDup (Object_keys o) → (k, v) ∈ o → get o k = Some v.
Proof.
  induction o as [|[k' v'] rest IH]; simpl; intros Hnd Hin.
  - by apply elem_of_nil in Hin.
  - apply NoDup_cons in Hnd as [Hfresh Hnd].
    apply elem_of_cons in Hin as [Heq|Hin].
    + injection Heq as -> ->. by rewrite String.eqb_refl.
    + destruct (String.eqb_spec k' k) as [->|Hne]; [|by apply IH].
      exfalso. apply Hfresh.
      change k with ((k, v).1). by apply list_elem_of_fmap_2.
Qed.

Lemma is_error_spec o a : is_error o a = true ↔ get o a = Some "error".
Proof.
  unfold is_error. destruct (get o a) as [v|]; [|done].
  destruct (String.eqb_spec v "error") as [->|Hne]; [done|].
  split; [done|]. intros [= ->]. done.
Qed.

(** The failed addresses are the keys of the entries with outcome
    [error], in enumeration order. *)
Lemma failedUsers_entries_aux o l :
  (∀ kv, kv ∈ l → get o kv.1 = Some kv.2) →
  List.filter (is_error o) (l.*1) = (List.filter entry_is_error l).*1.
Proof.
  induction l as [|[k v] rest IH]; intros Hget; [done|].
  assert (Hk : get o k = Some v) by (apply (Hget (k, v)); left).
  assert (Hrest : ∀ kv, kv ∈ rest → get o kv.1 = Some kv.2)
    by (intros kv Hkv; apply Hget; by right).
  cbn [fmap list_fmap List.filter fst].
  unfold is_error at 1. rewrite Hk. unfold entry_is_error at 1. simpl.
  destruct (String.eqb v "error"); simpl; by rewrite IH.
Qed.

Lemma failedUsers_entries o :
  NoDup (Object_keys o) →
  failedUsers o = (List.filter entry_is_error o).*1.
Proof.
  intros Hnd. unfold failedUsers, Object_keys.
  apply failedUsers_entries_aux.
  intros [k v] Hin. by apply get_entry.
Qed.

Lemma failedUsers_length o :
  NoDup (Object_keys o) → length (failedUsers o) = count_errors o.
Proof.
  intros Hnd. rewrite failedUsers_entries by done.
  unfold count_errors. apply length_fmap.
Qed.

Lemma failedUsers_elem o a :
  a ∈ failedUsers o ↔ get o a = Some "error".
Proof.
  unfold failedUsers. rewrite list_elem_of_In, filter_In, is_error_spec.
  rewrite <- list_elem_of_In. split; [tauto|].
  intros H. split; [|done]. by eapply get_in_keys.
Qed.

Lemma failedUsers_NoDup o :
  NoDup (Object_keys o) → NoDup (failedUsers o).
Proof.
  intros Hnd. unfold failedUsers.
  apply NoDup_ListNoDup, List.NoDup_filter, NoDup_ListNoDup, Hnd.
Qed.

(** The loop appends one line per address that passes its test. *)
Lemma errorList_loop_spec o inviter failed acc :
  errorList_loop o inviter failed acc =
  acc ++ (error_line inviter <$> List.filter (is_error o) failed).
Proof.
  revert acc. induction failed as [|a rest IH]; intros acc; simpl.
  - by rewrite app_nil_r.
  - destruct (is_error o a); rewrite IH; [|done].
    by rewrite <- app_assoc.
Qed.

Lemma filter_failedUsers o :
  List.filter (is_error o) (failedUsers o) = failedUsers o.
Proof.
  unfold failedUsers. induction (Object_keys o) as [|a l IH]; [done|].
  simpl. destruct (is_error o a) eqn:E; simpl; [|done].
  by rewrite E, IH.
Qed.

Lemma errorList_failedUsers o inviter :
  errorList_loop o inviter (failedUsers o) [] =
  error_line inviter <$> failedUsers o.
Proof. by rewrite errorList_loop_spec, filter_failedUsers. Qed.

Lemma failedUsers_nil addrs :
  failedUsers addrs = [] ↔ ∀ a, get addrs a ≠ Some "error".
Proof.
  split.
  - intros Hnil a Ha. apply failedUsers_elem in Ha.
    rewrite Hnil in Ha. by apply elem_of_nil in Ha.
  - intros Hno. destruct (failedUsers addrs) as [|a l] eqn:E; [done|].
    exfalso. apply (Hno a), failedUsers_elem. rewrite E. left.
Qed.

Lemma failedUsers_cons addrs a l :
  failedUsers addrs = a :: l → ∃ b, get addrs b = Some "error".
Proof.
  intros E. exists a. apply failedUsers_elem. rewrite E. left.
Qed.

(** The [TypeError] that reading [name] of [null] throws. *)
Variable null_name_error : JsError.

(** The step by cases on the failed addresses and on the room. *)
Lemma showAnyInviteErrors_cases addrs room inviter modal :
  _showAnyInviteErrors _t null_name_error addrs room inviter modal =
  match failedUsers addrs, room with
  | [], _ => (inr addrs, modal)
  | _ :: _, None => (inl null_name_error, modal)
  | [a], Some r =>
      if fatal inviter
      then (inr addrs,
            modal ++ [fatal_report _t r (getErrorText inviter a)])
      else (inr addrs, modal ++ [list_report _t r [error_line inviter a]])
  | failed, Some r =>
      (inr addrs,
       modal ++ [list_report _t r (error_line inviter <$> failed)])
  end.
Proof.
  unfold _showAnyInviteErrors.
  rewrite errorList_failedUsers, length_fmap.
  destruct (failedUsers addrs) as [|a [|b l]], room as [r|],
    (fatal inviter); reflexivity.
Qed.

(** What the step hands back. *)
Lemma showAnyInviteErrors_returned addrs room inviter modal :
  (_showAnyInviteErrors _t null_name_error addrs room inviter modal).1 =
  match failedUsers addrs, room with
  | _ :: _, None => inl null_name_error
  | _, _ => inr addrs
  end.
Proof.
  rewrite showAnyInviteErrors_cases.
  by destruct (failedUsers addrs) as [|a [|b l]], room as [r|],
       (fatal inviter).
Qed.

(** Outside the single fatal failure case the list report is the one
    dialog the step can create. *)
Lemma showAnyInviteErrors_list addrs room inviter modal :
  NoDup (Object_keys addrs) →
  ¬ (count_errors addrs = 1 ∧ fatal inviter = true) →
  _showAnyInviteErrors _t null_name_error addrs room inviter modal =
  match failedUsers addrs, room with
  | [], _ => (inr addrs, modal)
  | _ :: _, None => (inl null_name_error, modal)
  | failed, Some r =>
      (inr addrs,
       modal ++ [list_report _t r (error_line inviter <$> failed)])
  end.
Proof.
  intros Hnd Hcase. rewrite showAnyInviteErrors_cases.
  pose proof (failedUsers_length addrs Hnd) as Hlen.
  destruct (failedUsers addrs) as [|a [|b l]], room as [r|]; try done.
  destruct (fatal inviter) eqn:Hfatal; [|done].
  exfalso. apply Hcase. by rewrite <- Hlen.
Qed.

(** C3: when exactly one address has outcome [error] and the inviter
    reports the failure as fatal, the step, handed a room object, creates
    one error dialog whose description is that address's error text and
    nothing else, and returns the result set.  Handed [null] for the
    room it throws on reading the room's name: it creates no dialog and
    returns nothing. *)
Theorem single_fatal_failure_report addrs room inviter modal a :
  NoDup (Object_keys addrs) →
  count_errors addrs = 1 →
  get addrs a = Some "error" →
  fatal inviter = true →
  match room with
  | Some r =>
      ∃ d : Dialog,
        _showAnyInviteErrors _t null_name_error addrs room inviter modal
        = (inr addrs, modal ++ [d]) ∧
        component d = "dialogs.ErrorDialog" ∧
        title d = _t "Failed to invite users to the room:"
                    [("roomName", name r)] ∧
        description d = getErrorText inviter a
  | None =>
      _showAnyInviteErrors _t null_name_error addrs room inviter modal
      = (inl null_name_error, modal)
  end.
Proof.
  intros Hnd Hcount Ha Hfatal.
  pose proof (failedUsers_length addrs Hnd) as Hlen.
  rewrite Hcount in Hlen.
  apply failedUsers_elem in Ha.
  rewrite showAnyInviteErrors_cases, Hfatal.
  destruct (failedUsers addrs) as [|b [|c rest]]; try discriminate Hlen.
  apply list_elem_of_singleton in Ha as ->.
  destruct room as [r|]; [|reflexivity].
  exists (fatal_report _t r (getErrorText inviter b)).
  repeat split.
Qed.

(** C4: outside the single fatal failure case, when some address has
    outcome [error] the step, handed a room object, creates exactly one
    error dialog, whose description joins one line "address: error text"
    for every address with outcome [error] and for no other address;
    handed [null] for the room it throws on reading the room's name and
    creates no dialog.  When no address has outcome [error] it creates
    no dialog, whatever the room. *)
Theorem failure_list_report addrs room inviter modal :
  NoDup (Object_keys addrs) →
  ¬ (count_errors addrs = 1 ∧ fatal inviter = true) →
  ∃ failed : list string,
    NoDup failed ∧
    (∀ a, a ∈ failed ↔ get addrs a = Some "error") ∧
    let out :=
      _showAnyInviteErrors _t null_name_error addrs room inviter modal in
    match failed, room with
    | [], _ => out = (inr addrs, modal)
    | _ :: _, Some r =>
        ∃ d : Dialog,
          out = (inr addrs, modal ++ [d]) ∧
          component d = "dialogs.ErrorDialog" ∧
          title d =
            _t "Failed to invite the following users to the %(roomName)s room:"
              [("roomName", name r)] ∧
          description d =
            String.concat "[object Object]"
              ((λ a, a +:+ ": " +:+ getErrorText inviter a) <$> failed)
    | _ :: _, None => out = (inl null_name_error, modal)
    end.
Proof.
  intros Hnd Hcase. exists (failedUsers addrs).
  split; [by apply failedUsers_NoDup|].
  split; [apply failedUsers_elem|].
  cbv zeta. rewrite showAnyInviteErrors_list by done.
  destruct (failedUsers addrs) as [|a l], room as [r|]; try reflexivity.
  exists (list_report _t r (error_line inviter <$> a :: l)).
  repeat split.
Qed.

(** C9: the step returns the result set it was given, whichever dialog
    it created, if any, in every case but one: handed [null] for the
    room and a result set with a failed address, it throws on reading
    the room's name and returns nothing. *)
Theorem result_set_returned_or_thrown addrs room inviter modal :
  let out :=
    (_showAnyInviteErrors _t null_name_error addrs room inviter modal).1 in
  (out = inr addrs ↔ is_Some room ∨ ∀ a, get addrs a ≠ Some "error") ∧
  (out = inl null_name_error ↔
   room = None ∧ ∃ a, get addrs a = Some "error").
Proof.
  cbv zeta. rewrite showAnyInviteErrors_returned.
  pose proof (failedUsers_nil addrs) as Hnil.
  destruct (failedUsers addrs) as [|b l] eqn:E.
  - assert (Hno : ∀ a, get addrs a ≠ Some "error") by (by apply Hnil).
    split; split.
    + intros _. by right.
    + by destruct room.
    + by destruct room.
    + intros [_ [a Ha]]. by apply Hno in Ha.
  - apply failedUsers_cons in E as Hex.
    destruct room as [r|]; split; split.
    + intros _. left. by eexists.
    + done.
    + done.
    + by intros [? _].
    + done.
    + intros [[r Hr]|Hno]; [done|]. by apply Hnil in Hno.
    + done.
    + done.
Qed.

End facts.

End RoomInviteFacts.

(** ** The failure-reporting step on concrete result sets *)

Module InviteScenarios.
Import RoomInvite RoomInviteFacts.

Lemma single_fatal_failure_report_witness :
  NoDup (Object_keys sample_single) ∧
  count_errors sample_single = 1 ∧
  get sample_single "@alice:example.org" = Some "error" ∧
  fatal (sample_inviter true) = true ∧
  (∃ d : Dialog,
     _showAnyInviteErrors sample_t sample_null_name_error sample_single
       (Some sample_room) (sample_inviter true) []
     = (inr sample_single, [d]) ∧
     component d = "dialogs.ErrorDialog" ∧
     title d = "Failed to invite users to the room:" ∧
     description d = "could not invite @alice:example.org") ∧
  _showAnyInviteErrors sample_t sample_null_name_error sample_single
    None (sample_inviter true) []
  = (inl sample_null_name_error, []).
Proof.
  assert (Hnd : NoDup (Object_keys sample_single)) by compute_done.
  split; [exact Hnd|]. do 3 (split; [reflexivity|]).
  split.
  - exact (single_fatal_failure_report sample_t sample_null_name_error
             sample_single (Some sample_room) (sample_inviter true) []
             "@alice:example.org" Hnd eq_refl eq_refl eq_refl).
  - exact (single_fatal_failure_report sample_t sample_null_name_error
             sample_single None (sample_inviter true) []
             "@alice:example.org" Hnd eq_refl eq_refl eq_refl).
Defined.

Lemma failure_list_report_witness :
  NoDup (Object_keys sample_addrs) ∧
  ¬ (count_errors sample_addrs = 1 ∧ fatal (sample_inviter true) = true) ∧
  (∃ failed : list string,
     NoDup failed ∧
     (∀ a, a ∈ failed ↔ get sample_addrs a = Some "error") ∧
     match failed with
     | [] =>
         _showAnyInviteErrors sample_t sample_null_name_error sample_addrs
           (Some sample_room) (sample_inviter true) []
         = (inr sample_addrs, [])
     | _ :: _ =>
         ∃ d : Dialog,
           _showAnyInviteErrors sample_t sample_null_name_error
             sample_addrs (Some sample_room) (sample_inviter true) []
           = (inr sample_addrs, [d]) ∧
           component d = "dialogs.ErrorDialog" ∧
           title d =
             "Failed to invite the following users to the %(roomName)s room:"
           ∧
           description d =
             String.concat "[object Object]"
               ((λ a, a +:+ ": could not invite " +:+ a) <$> failed)
     end) ∧
  (∃ failed : list string,
     NoDup failed ∧
     (∀ a, a ∈ failed ↔ get sample_addrs a = Some "error") ∧
     match failed with
     | [] =>
         _showAnyInviteErrors sample_t sample_null_name_error sample_addrs
           None (sample_inviter true) []
         = (inr sample_addrs, [])
     | _ :: _ =>
         _showAnyInviteErrors sample_t sample_null_name_error sample_addrs
           None (sample_inviter true) []
         = (inl sample_null_name_error, [])
     end).
Proof.
  assert (Hnd : NoDup (Object_keys sample_addrs)) by compute_done.
  assert (Hcase : ¬ (count_errors sample_addrs = 1
                     ∧ fatal (sample_inviter true) = true))
    by (intros [Hc _]; vm_compute in Hc; discriminate Hc).
  split; [exact Hnd|]. split; [exact Hcase|]. split.
  - exact (failure_list_report sample_t sample_null_name_error
             sample_addrs (Some sample_room) (sample_inviter true) []
             Hnd Hcase).
  - exact (failure_list_report sample_t sample_null_name_error
             sample_addrs None (sample_inviter true) [] Hnd Hcase).
Defined.

Lemma result_set_returned_or_thrown_witness :
  (_showAnyInviteErrors sample_t sample_null_name_error sample_addrs
     (Some sample_room) (sample_inviter false) []).1 = inr sample_addrs ∧
  (_showAnyInviteErrors sample_t sample_null_name_error sample_addrs
     None (sample_inviter false) []).1 = inl sample_null_name_error.
Proof.
  split.
  - apply (proj1 (result_set_returned_or_thrown sample_t
                    sample_null_name_error sample_addrs (Some sample_room)
                    (sample_inviter false) [])).
    left. by eexists.
  - apply (proj2 (result_set_returned_or_thrown sample_t
                    sample_null_name_error sample_addrs None
                    (sample_inviter false) [])).
    split; [reflexivity|]. by exists "bob@example.org".
Defined.

End InviteScenarios.

(** ** Starting chats and inviting into rooms *)

Module InviteOrchestratorFacts.
Import RoomInvite RoomInviteFacts.

Section facts.

Variable _t : string → list (string * string) → string.
Variable getAddressType : string → option string.
Variable getDMRoomsForUserId : string → list string.
Variable getRoom : string → option ClientRoom.
Variable null_name_error : JsError.

Lemma filter_sublist {A} (f : A → bool) (l : list A) :
  List.filter f l `sublist_of` l.
Proof.
  induction l as [|x l IH]; simpl; [done|].
  destruct (f x); by constructor.
Qed.

Lemma getDirectMessageRooms_elem addr r :
  r ∈ _getDirectMessageRooms getDMRoomsForUserId getRoom addr ↔
  r ∈ getDMRoomsForUserId addr ∧
  ∃ room, getRoom r = Some room ∧ getMyMembership room = "join".
Proof.
  unfold _getDirectMessageRooms.
  rewrite list_elem_of_In, filter_In, <- list_elem_of_In.
  split; intros [Hin H]; (split; [done|]).
  - destruct (getRoom r) as [room|]; [|done].
    exists room. split; [done|]. by apply String.eqb_eq.
  - destruct H as (room & -> & Hjoin). by apply String.eqb_eq.
Qed.

(** X12: the rooms offered for reuse are, in the order of the direct
    message index, exactly those of the user's direct message rooms
    that the client knows and in which the user's own membership is
    [join]. *)
Theorem direct_message_rooms_joined addr :
  _getDirectMessageRooms getDMRoomsForUserId getRoom addr
    `sublist_of` getDMRoomsForUserId addr ∧
  ∀ r, r ∈ _getDirectMessageRooms getDMRoomsForUserId getRoom addr ↔
       r ∈ getDMRoomsForUserId addr ∧
       ∃ room, getRoom r = Some room ∧ getMyMembership room = "join".
Proof.
  split; [apply filter_sublist|apply getDirectMessageRooms_elem].
Qed.

(** X13: with exactly one address picked, the reuse chooser is shown if
    the address is an account identifier for which some known direct
    message room has the user joined; in every other case, also for a
    third-party address, a direct chat room is created for that
    address. *)
Theorem start_chat_single_address a :
  let calls :=
    _onStartChatFinished getAddressType getDMRoomsForUserId getRoom
      true [a] in
  let reusable :=
    getAddressType (address a) = Some "mx-user-id" ∧
    ∃ r room, r ∈ getDMRoomsForUserId (address a) ∧
              getRoom r = Some room ∧ getMyMembership room = "join" in
  (reusable → calls = [ShowCreateOrReuse (address a)]) ∧
  (¬ reusable → calls = [CreateRoom (Some (address a))]).
Proof.
  intros calls reusable. subst calls reusable.
  unfold _onStartChatFinished, _isDmChat. cbn.
  pose proof (getDirectMessageRooms_elem (address a)) as Hmem.
  split.
  - intros (Htype & r & room & Hr & Hroom & Hjoin).
    rewrite (bool_decide_eq_true_2 _ Htype).
    assert (Hin : r ∈ _getDirectMessageRooms getDMRoomsForUserId getRoom
                        (address a))
      by (apply Hmem; eauto).
    by destruct (_getDirectMessageRooms getDMRoomsForUserId getRoom
                   (address a)); [apply elem_of_nil in Hin|].
  - intros Hnot. case_bool_decide as Htype; [|done].
    destruct (_getDirectMessageRooms getDMRoomsForUserId getRoom
                (address a)) as [|r l] eqn:E; [done|].
    exfalso. apply Hnot. split; [done|].
    destruct (proj1 (Hmem r)) as (Hr & room & Hroom & Hjoin);
      [left|by eauto].
Qed.

(** X14: a declined dialog starts nothing, for a chat as for a room
    invite.  An accepted chat dialog with no address or with two or more
    creates one room without a direct-chat user, whatever the kinds of
    the addresses; an accepted room invite starts one invite batch into
    that room with the picked addresses in order. *)
Theorem start_chat_other_selections roomId addrs :
  _onStartChatFinished getAddressType getDMRoomsForUserId getRoom
    false addrs = [] ∧
  _onRoomInviteFinished roomId false addrs = [] ∧
  (length addrs ≠ 1 →
   _onStartChatFinished getAddressType getDMRoomsForUserId getRoom
     true addrs = [CreateRoom None]) ∧
  _onRoomInviteFinished roomId true addrs =
    [InviteMultiple roomId (address <$> addrs)].
Proof.
  split; [done|]. split; [done|]. split; [|done].
  intros Hlen. unfold _onStartChatFinished, _isDmChat.
  rewrite length_fmap. cbn [negb].
  by rewrite (proj2 (Nat.eqb_neq _ _) Hlen).
Qed.

(** X15: once an invite batch has settled, a room the client knows gets
    what [_showAnyInviteErrors] shows for it; for a room the client does
    not know, nothing is shown when no address failed, and otherwise the
    per-address report is never built: one generic error dialog titled
    "Failed to invite" is shown instead, and its description is the
    message of the error thrown on reading the room's name (the default
    "Operation failed" text if that error has no message). *)
Theorem invites_settled_report states roomId inviter modal :
  let shown :=
    invites_settled _t getRoom null_name_error states roomId inviter
      modal in
  (∀ room, getRoom roomId = Some room →
     shown = (_showAnyInviteErrors _t null_name_error states
                (Some (room_object room)) inviter modal).2) ∧
  (getRoom roomId = None →
   (∀ a, get states a ≠ Some "error") →
   shown = modal) ∧
  (getRoom roomId = None →
   (∃ a, get states a = Some "error") →
   ∃ d : Dialog,
     shown = modal ++ [d] ∧
     analyticsAction d = "Failed to invite" ∧
     component d = "dialogs.ErrorDialog" ∧
     title d = _t "Failed to invite" [] ∧
     (∀ m, message null_name_error = Some m → m ≠ "" →
           description d = m) ∧
     (message null_name_error = None ∨ message null_name_error = Some "" →
      description d = _t "Operation failed" [])).
Proof.
  cbv zeta. unfold invites_settled. split; [|split].
  - intros room ->. cbn [fmap option_fmap option_map].
    rewrite showAnyInviteErrors_cases.
    by destruct (failedUsers states) as [|a [|b l]], (fatal inviter).
  - intros -> Hno. cbn [fmap option_fmap option_map].
    rewrite showAnyInviteErrors_cases.
    by rewrite (proj2 (failedUsers_nil _t _) Hno).
  - intros -> [a Ha]. cbn [fmap option_fmap option_map].
    rewrite showAnyInviteErrors_cases.
    destruct (failedUsers states) as [|b [|c l]] eqn:E.
    { by apply (proj1 (failedUsers_nil _t _) E a) in Ha. }
    all: cbn [createTrackedDialog].
    all: exists (failure_report _t "Failed to invite" (Some null_name_error)).
    all: do 4 (split; [reflexivity|]); cbn; split.
    all: try (intros m -> Hm; by destruct (String.eqb_spec m "")).
    all: by intros [->| ->].
Qed.

(** X16: whatever the result set, the room and the inviter, the
    reporting step creates at most one dialog, an error dialog; it
    creates none exactly when no address has outcome [error] or the room
    it was handed is [null]. *)
Theorem report_shown_iff_failure addrs room inviter modal :
  let modal' :=
    (_showAnyInviteErrors _t null_name_error addrs room inviter modal).2 in
  (modal' = modal ↔ room = None ∨ ∀ a, get addrs a ≠ Some "error") ∧
  (modal' = modal ∨
   ∃ d, modal' = modal ++ [d] ∧ component d = "dialogs.ErrorDialog").
Proof.
  cbv zeta. rewrite showAnyInviteErrors_cases.
  pose proof (failedUsers_nil _t addrs) as Hnil.
  assert (Hneq : ∀ d : Dialog, modal ++ [d] ≠ modal).
  { intros d Heq. apply (f_equal length) in Heq.
    rewrite length_app in Heq. simpl in Heq. lia. }
  destruct (failedUsers addrs) as [|a l] eqn:Ef.
  { split; [|by left]. split; [intros _; right; by apply Hnil|done]. }
  destruct room as [r|].
  - assert (Hsome : ¬ ∀ a, get addrs a ≠ Some "error")
      by (intros Hno; by apply Hnil in Hno).
    destruct l as [|b l]; [destruct (fatal inviter)|]; cbn [snd];
      (split;
       [split; [intros Heq; by apply Hneq in Heq
               |by intros [?|Hno]; [|apply Hsome in Hno]]
       |right; by eexists]).
  - destruct l as [|b l]; (split; [|by left]);
      (split; [intros _; by left|done]).
Qed.

(** X17: outside the single fatal failure case and with a room object at
    hand, the description of the list report is made of one line
    "address: error text" per failed address, in the order in which the
    result set enumerates them, joined by the string form of the
    separator element; with [null] for the room no report is shown. *)
Theorem report_lines_in_order addrs room inviter modal :
  NoDup (Object_keys addrs) →
  ¬ (count_errors addrs = 1 ∧ fatal inviter = true) →
  let failed := (List.filter entry_is_error addrs).*1 in
  let modal' :=
    (_showAnyInviteErrors _t null_name_error addrs room inviter modal).2 in
  match failed, room with
  | _ :: _, Some r =>
      ∃ d : Dialog,
        modal' = modal ++ [d] ∧
        description d =
          String.concat "[object Object]"
            ((λ a, a +:+ ": " +:+ getErrorText inviter a) <$> failed)
  | _, _ => modal' = modal
  end.
Proof.
  intros Hnd Hcase. cbv zeta.
  rewrite <- (failedUsers_entries addrs Hnd).
  rewrite showAnyInviteErrors_list by done.
  destruct (failedUsers addrs) as [|a l], room as [r|]; try reflexivity.
  exists (list_report _t r (error_line inviter <$> a :: l)).
  by split.
Qed.

End facts.

End InviteOrchestratorFacts.

(** ** The room view router *)

Module OpenRoomsStoreFacts.
Import OpenRoomsStore.

(** *** Arrays *)

Lemma js_index_Some {A} (l : list A) i x :
  js_index l i = Some x ↔ (0 ≤ i)%Z ∧ l !! Z.to_nat i = Some x.
Proof.
  unfold js_index. destruct (Z.ltb_spec i 0); split.
  - done.
  - intros [? _]. lia.
  - intros ?. split; [lia|done].
  - by intros [_ ?].
Qed.

Lemma findIndex_from_spec {A} (f : A → bool) l k :
  (0 ≤ k)%Z →
  (findIndex_from f l k = (-1)%Z ∧ ∀ x, x ∈ l → f x = false) ∨
  (∃ x, (k ≤ findIndex_from f l k < k + Z.of_nat (length l))%Z ∧
        l !! Z.to_nat (findIndex_from f l k - k) = Some x ∧ f x = true).
Proof.
  revert k. induction l as [|y l IH]; intros k Hk; simpl.
  - left. split; [done|]. intros x Hx. by apply elem_of_nil in Hx.
  - destruct (f y) eqn:Hy.
    + right. exists y. replace (k - k)%Z with 0%Z by lia.
      split; [lia|done].
    + destruct (IH (k + 1)%Z ltac:(lia)) as [[Hnone Hall]|(x & Hr & Hx & Hfx)].
      * left. split; [done|]. intros x Hx.
        apply elem_of_cons in Hx as [->|Hx]; [done|by apply Hall].
      * right. exists x. split; [lia|]. split; [|done].
        replace (Z.to_nat (findIndex_from f l (k + 1) - k))
          with (S (Z.to_nat (findIndex_from f l (k + 1) - (k + 1))))
          by lia.
        done.
Qed.

Lemma findIndex_spec {A} (f : A → bool) l :
  (findIndex f l = (-1)%Z ∧ ∀ x, x ∈ l → f x = false) ∨
  (∃ x, (0 ≤ findIndex f l < Z.of_nat (length l))%Z ∧
        l !! Z.to_nat (findIndex f l) = Some x ∧ f x = true).
Proof.
  unfold findIndex.
  destruct (findIndex_from_spec f l 0 ltac:(lia))
    as [?|(x & Hr & Hx & Hfx)]; [by left|].
  right. exists x. rewrite Z.sub_0_r in Hx. split; [lia|done].
Qed.

Lemma findIndex_found {A} (f : A → bool) l x :
  x ∈ l → f x = true → findIndex f l ≠ (-1)%Z.
Proof.
  intros Hx Hfx.
  destruct (findIndex_spec f l) as [[_ Hall]|(y & Hr & _)]; [|lia].
  rewrite (Hall x Hx) in Hfx. discriminate.
Qed.

Section facts.

Context {RoomViewStore : Type}.
Variable newStore : RoomViewStore.
Variable reduce : Payload → RoomViewStore → RoomViewStore.
Variable getRoomId : RoomViewStore → jsval.
Variable getRoomAlias : RoomViewStore → jsval.

Abbreviation World := (World RoomViewStore).
Abbreviation matches := (matchesRoom getRoomId getRoomAlias).
Abbreviation roomIndex := (_roomIndex getRoomId getRoomAlias).
Abbreviation hasRoom := (_hasRoom getRoomId getRoomAlias).
Abbreviation forwardAction := (_forwardAction reduce).
Abbreviation createRoom := (_createRoom newStore).
Abbreviation view_room_case :=
  (case_view_room newStore reduce getRoomId getRoomAlias).
Abbreviation view_group_grid_case := (case_view_group_grid newStore reduce).
Abbreviation onDispatch :=
  (__onDispatch newStore reduce getRoomId getRoomAlias).
Abbreviation alias_rejected := (_resolveRoomAlias_rejected reduce).
Abbreviation Reachable := (reachable newStore reduce getRoomId getRoomAlias).

Implicit Types (w : World) (p payload : Payload) (e : Entry).

(** *** Reading the current entry *)

Lemma getCurrentRoom_Some w e :
  _getCurrentRoom w = Some e ↔
  ∃ i, currentIndex (_state w) = Some i ∧
       (0 ≤ i < Z.of_nat (length (rooms (_state w))))%Z ∧
       rooms (_state w) !! Z.to_nat i = Some e.
Proof.
  unfold _getCurrentRoom. destruct (currentIndex (_state w)) as [i|].
  - destruct (Z.ltb_spec i (Z.of_nat (length (rooms (_state w))))).
    + rewrite js_index_Some. split.
      * intros [? ?]. exists i. split; [done|]. split; [lia|done].
      * intros (j & [= <-] & ? & ?). split; [lia|done].
    + split; [done|]. intros (j & [= <-] & ? & ?). lia.
  - split; [done|]. by intros (j & ? & _).
Qed.

Lemma getCurrentRoom_valid w i :
  currentIndex (_state w) = Some i →
  (0 ≤ i < Z.of_nat (length (rooms (_state w))))%Z →
  is_Some (_getCurrentRoom w).
Proof.
  intros Hi Hr.
  destruct (lookup_lt_is_Some_2 (rooms (_state w)) (Z.to_nat i)
              ltac:(lia)) as [e He].
  exists e. apply getCurrentRoom_Some. by exists i.
Qed.

Lemma getCurrentRoom_state w w' :
  _state w' = _state w → _getCurrentRoom w' = _getCurrentRoom w.
Proof. unfold _getCurrentRoom. by intros ->. Qed.

Lemma getCurrentRoomStore_Some w s :
  getCurrentRoomStore w = Some s ↔
  ∃ e, _getCurrentRoom w = Some e ∧ store e = s.
Proof.
  unfold getCurrentRoomStore. destruct (_getCurrentRoom w) as [e|].
  - split; [intros [= <-]; by exists e | by intros (? & [= <-] & ->)].
  - split; [done | by intros (? & ? & _)].
Qed.

Lemma getCurrentRoomStore_is_Some w :
  is_Some (getCurrentRoomStore w) ↔ is_Some (_getCurrentRoom w).
Proof.
  unfold getCurrentRoomStore. destruct (_getCurrentRoom w); split;
    intros [? ?]; by eauto.
Qed.

(** *** Room lookup *)

Lemma roomIndex_spec p w :
  (roomIndex p w = (-1)%Z ∧ hasRoom p w = false) ∨
  (∃ e, (0 ≤ roomIndex p w < Z.of_nat (length (rooms (_state w))))%Z ∧
        rooms (_state w) !! Z.to_nat (roomIndex p w) = Some e ∧
        matches p (stores w !! store e) = true ∧
        hasRoom p w = true).
Proof.
  unfold _hasRoom, _roomIndex.
  destruct (findIndex_spec
              (λ r, matches p (deref w (Some (store r))))
              (rooms (_state w))) as [[Hr _]|(e & Hr & He & Hm)].
  - left. by rewrite Hr.
  - right. exists e. repeat split; try done; try lia.
Qed.

(** An action that matches the current room finds that room among the
    entries. *)
Lemma matches_current_hasRoom p w :
  matches p (deref w (getCurrentRoomStore w)) = true → hasRoom p w = true.
Proof.
  intros Hm. destruct (getCurrentRoomStore w) as [s|] eqn:Hs; [|done].
  apply getCurrentRoomStore_Some in Hs as (e & He & <-).
  apply getCurrentRoom_Some in He as (i & _ & _ & He).
  unfold _hasRoom, _roomIndex. apply negb_true_iff, Z.eqb_neq.
  eapply findIndex_found; [|exact Hm].
  by eapply list_elem_of_lookup_2.
Qed.

(** *** What each operation leaves alone *)

Lemma dispatch_frame d p w :
  _state (dispatch reduce d p w) = _state w ∧
  dispatchers (dispatch reduce d p w) = dispatchers w ∧
  next (dispatch reduce d p w) = next w ∧
  _forwardingEvent (dispatch reduce d p w) = _forwardingEvent w ∧
  trace (dispatch reduce d p w) = trace w ++ [PrivateDispatch d p].
Proof.
  unfold dispatch. by destruct (dispatchers w !! d) as [[s|]|].
Qed.

Lemma dispatch_state d p w : _state (dispatch reduce d p w) = _state w.
Proof. apply dispatch_frame. Qed.

Lemma dispatch_dispatchers d p w :
  dispatchers (dispatch reduce d p w) = dispatchers w.
Proof. apply dispatch_frame. Qed.

Lemma dispatch_next d p w : next (dispatch reduce d p w) = next w.
Proof. apply dispatch_frame. Qed.

Lemma dispatch_forwardingEvent d p w :
  _forwardingEvent (dispatch reduce d p w) = _forwardingEvent w.
Proof. apply dispatch_frame. Qed.

Lemma dispatch_trace d p w :
  trace (dispatch reduce d p w) = trace w ++ [PrivateDispatch d p].
Proof. apply dispatch_frame. Qed.

Lemma dispatch_stores d p w :
  stores (dispatch reduce d p w) =
  match dispatchers w !! d with
  | Some (Some s) => alter (reduce p) s (stores w)
  | _ => stores w
  end.
Proof.
  unfold dispatch. by destruct (dispatchers w !! d) as [[s|]|].
Qed.

Lemma forwardAction_state p w : _state (forwardAction p w) = _state w.
Proof.
  unfold _forwardAction. destruct (_getCurrentRoom w); [|done].
  apply dispatch_frame.
Qed.

Lemma forwardAction_frame p w :
  dispatchers (forwardAction p w) = dispatchers w ∧
  next (forwardAction p w) = next w ∧
  _forwardingEvent (forwardAction p w) = _forwardingEvent w.
Proof.
  unfold _forwardAction. destruct (_getCurrentRoom w); [|done].
  destruct (dispatch_frame (dispatcher e) p w) as (_ & ? & ? & ? & _).
  done.
Qed.

Lemma unregister_frame d token w :
  _state (unregister d token w) = _state w ∧
  stores (unregister d token w) = stores w ∧
  next (unregister d token w) = next w ∧
  _forwardingEvent (unregister d token w) = _forwardingEvent w.
Proof.
  unfold unregister. destruct (dispatchers w !! d) as [[s|]|]; [|done..].
  by destruct (bool_decide (s = token)).
Qed.

Lemma unregister_all_frame (l : list Entry) w :
  let w' :=
    foldl (λ w room,
             unregister (dispatcher room) (getDispatchToken (store room)) w)
      w l in
  _state w' = _state w ∧ stores w' = stores w ∧ next w' = next w ∧
  _forwardingEvent w' = _forwardingEvent w.
Proof.
  revert w. induction l as [|e l IH]; intros w; simpl; [done|].
  destruct (IH (unregister (dispatcher e) (getDispatchToken (store e)) w))
    as (-> & -> & -> & ->).
  apply unregister_frame.
Qed.

Lemma cleanupRooms_state w : _state (_cleanupRooms w) = empty_state.
Proof. reflexivity. Qed.

Lemma cleanupRooms_frame w :
  stores (_cleanupRooms w) = stores w ∧
  next (_cleanupRooms w) = next w ∧
  _forwardingEvent (_cleanupRooms w) = _forwardingEvent w.
Proof.
  unfold _cleanupRooms, _setState. simpl.
  destruct (unregister_all_frame (rooms (_state w)) w) as (_ & ? & ? & ?).
  done.
Qed.

Lemma createRoom_state w :
  _state (createRoom w) =
  {| rooms := [ {| store := S (next w); dispatcher := next w |} ];
     currentIndex := Some 0%Z;
     group_id := group_id (_state w) |}.
Proof. reflexivity. Qed.

(** *** The [view_room] case *)

(** Requesting the alias lookup only adds to the trace. *)
Lemma alias_request_frame p w (b : bool) :
  let w1 := if b then _resolveRoomAlias p w else w in
  _state w1 = _state w ∧ stores w1 = stores w ∧
  dispatchers w1 = dispatchers w ∧ next w1 = next w ∧
  trace w1 = trace w ++ (if b then [GetRoomIdForAlias p] else []).
Proof. destruct b; simpl; by rewrite ?app_nil_r. Qed.

(** Worlds with the same state and stores answer room lookups alike. *)
Lemma same_view p w1 w :
  _state w1 = _state w → stores w1 = stores w →
  _getCurrentRoom w1 = _getCurrentRoom w ∧
  getCurrentRoomStore w1 = getCurrentRoomStore w ∧
  (∀ r, deref w1 r = deref w r) ∧
  roomIndex p w1 = roomIndex p w ∧
  hasRoom p w1 = hasRoom p w.
Proof.
  intros Hst Hs.
  assert (Hcur : _getCurrentRoom w1 = _getCurrentRoom w)
    by (by apply getCurrentRoom_state).
  assert (Hidx : roomIndex p w1 = roomIndex p w)
    by (unfold _roomIndex; simpl; by rewrite Hst, Hs).
  split; [done|]. split; [unfold getCurrentRoomStore; by rewrite Hcur|].
  split; [intros [s|]; simpl; by rewrite ?Hs|].
  split; [done|]. unfold _hasRoom. by rewrite Hidx.
Qed.

(** The state after a [view_room] is one of three: the current index
    switched to the matching entry, the state as it was, or one entry
    created because there was no current entry. *)
Lemma case_view_room_state p w :
  (matches p (deref w (getCurrentRoomStore w)) = true ∧
   _state (view_room_case p w) =
   {| rooms := rooms (_state w);
      currentIndex := Some (roomIndex p w);
      group_id := group_id (_state w) |}) ∨
  (matches p (deref w (getCurrentRoomStore w)) = false ∧
   is_Some (_getCurrentRoom w) ∧
   _state (view_room_case p w) = _state w) ∨
  (_getCurrentRoom w = None ∧
   _state (view_room_case p w) =
   {| rooms := [ {| store := S (next w); dispatcher := next w |} ];
      currentIndex := Some 0%Z;
      group_id := group_id (_state w) |}).
Proof.
  assert (Hfin : ∀ w0 : World,
    _state (if truthy (_forwardingEvent w0)
            then with_forwardingEvent JNull
                   (log (GlobalDispatch
                           (send_event p (_forwardingEvent w0))) w0)
            else w0) = _state w0)
    by (intros w0; by destruct (truthy (_forwardingEvent w0))).
  unfold case_view_room.
  destruct (alias_request_frame p w
              (negb (truthy (room_id p)) && truthy (room_alias p)))
    as (Hst1 & Hs1 & _ & Hn1 & _).
  set (w1 := if negb (truthy (room_id p)) && truthy (room_alias p)
             then _resolveRoomAlias p w else w) in *.
  destruct (same_view p w1 w Hst1 Hs1)
    as (Hcur1 & Hcs1 & Hderef & Hidx & Hhas).
  rewrite Hcs1, Hderef, Hhas, Hidx.
  destruct (matches p (deref w (getCurrentRoomStore w))) eqn:Hm.
  - left. split; [done|].
    rewrite (matches_current_hasRoom _ _ Hm).
    destruct (roomIndex_spec p w) as [[_ Hno]|(e & Hr & He & _ & _)];
      [by rewrite (matches_current_hasRoom _ _ Hm) in Hno|].
    set (w2 := _setState _ w1).
    assert (Hst2 : _state w2 =
                   {| rooms := rooms (_state w);
                      currentIndex := Some (roomIndex p w);
                      group_id := group_id (_state w) |})
      by (subst w2; simpl; unfold Object_assign; simpl; by rewrite Hst1).
    assert (Hsome : is_Some (getCurrentRoomStore w2)).
    { apply getCurrentRoomStore_is_Some.
      apply (getCurrentRoom_valid w2 (roomIndex p w));
        rewrite Hst2; simpl; [done|lia]. }
    rewrite (bool_decide_eq_true_2 _ Hsome). simpl.
    by rewrite Hfin, forwardAction_state.
  - destruct (_getCurrentRoom w) as [e|] eqn:Hcur.
    + right. left. split; [done|]. split; [by eexists|].
      assert (Hsome : is_Some (getCurrentRoomStore w1)).
      { apply getCurrentRoomStore_is_Some. rewrite Hcur1. by eexists. }
      rewrite (bool_decide_eq_true_2 _ Hsome). simpl.
      by rewrite Hfin, forwardAction_state.
    + right. right. split; [done|].
      assert (Hnone : ¬ is_Some (getCurrentRoomStore w1)).
      { rewrite getCurrentRoomStore_is_Some, Hcur1. by intros [? ?]. }
      rewrite (bool_decide_eq_false_2 _ Hnone). simpl.
      rewrite Hfin, forwardAction_state, createRoom_state.
      by rewrite Hn1, Hst1.
Qed.

(** *** The [view_group_grid] case *)

Lemma makeRoomStores_spec members w :
  makeRoomStores_post newStore reduce members w
    (makeRoomStores newStore reduce members w).
Proof.
  revert w. induction members as [|room rest IH]; intros w.
  - unfold makeRoomStores_post. simpl.
    repeat split; try done; try lia; by rewrite app_nil_r.
  - cbn [makeRoomStores].
    unfold new_MatrixDispatcher, new_RoomViewStore. cbv zeta.
    set (w3 := dispatch reduce (next w) (set_room_id room) _).
    assert (Hn3 : next w3 = S (S (next w)))
      by (subst w3; by rewrite dispatch_next).
    assert (Hst3 : _state w3 = _state w)
      by (subst w3; by rewrite dispatch_state).
    assert (Hf3 : _forwardingEvent w3 = _forwardingEvent w)
      by (subst w3; by rewrite dispatch_forwardingEvent).
    assert (Hd3 : dispatchers w3 =
                  <[next w := Some (S (next w))]> (dispatchers w)).
    { subst w3. rewrite dispatch_dispatchers. simpl.
      apply insert_insert_eq. }
    assert (Hs3 : stores w3 =
                  <[S (next w) := reduce (set_room_id room) newStore]>
                    (stores w)).
    { subst w3. rewrite dispatch_stores. simpl.
      rewrite lookup_insert_eq. apply alter_insert_eq. }
    assert (Ht3 : trace w3 =
                  trace w ++ [PrivateDispatch (next w) (set_room_id room)])
      by (subst w3; by rewrite dispatch_trace).
    specialize (IH w3).
    destruct (makeRoomStores newStore reduce rest w3) as [es w4].
    unfold makeRoomStores_post in *. cbn [fst snd] in *.
    destruct IH as (Hes & Hn4 & Hst4 & Hf4 & Hnew & Hold & Ht4).
    split.
    { rewrite Hes, imap_cons. f_equal.
      - unfold grid_entry. f_equal; simpl; lia.
      - apply imap_ext. intros i x _. unfold compose, grid_entry.
        rewrite Hn3. f_equal; lia. }
    split; [rewrite Hn4, Hn3; cbn [length]; lia|].
    split; [by rewrite Hst4|].
    split; [by rewrite Hf4|].
    split.
    { intros [|i] room' Hi; cbn [lookup list_lookup] in Hi.
      - injection Hi as <-.
        replace (next w + 2 * 0 + 1) with (S (next w)) by lia.
        replace (next w + 2 * 0) with (next w) by lia.
        destruct (Hold (S (next w))) as [Ha _]; [lia|].
        destruct (Hold (next w)) as [_ Hb]; [lia|].
        split.
        + etrans; [exact Ha|]. rewrite Hs3. apply lookup_insert_eq.
        + etrans; [exact Hb|]. rewrite Hd3. apply lookup_insert_eq.
      - destruct (Hnew i room' Hi) as [Hs Hd].
        rewrite Hn3 in Hs, Hd.
        replace (next w + 2 * S i + 1) with (S (S (next w)) + 2 * i + 1)
          by lia.
        replace (next w + 2 * S i) with (S (S (next w)) + 2 * i) by lia.
        done. }
    split.
    { intros l Hl. destruct (Hold l) as [Ha Hb]; [lia|].
      split.
      - etrans; [exact Ha|]. rewrite Hs3. apply lookup_insert_ne. lia.
      - etrans; [exact Hb|]. rewrite Hd3. apply lookup_insert_ne. lia. }
    rewrite Ht4, Ht3, <- app_assoc, imap_cons. f_equal.
    cbn [app]. f_equal; [f_equal; lia|].
    apply imap_ext. intros i x _. unfold compose.
    rewrite Hn3. f_equal. lia.
Qed.

Lemma case_view_group_grid_same G p w :
  payload_group_id p = group_id (_state w) →
  view_group_grid_case G p w = w.
Proof.
  intros Heq. unfold case_view_group_grid.
  by rewrite (proj2 (strict_neq_false _ _) Heq).
Qed.

(** What a [view_group_grid] with a new group id leaves behind. *)
Lemma case_view_group_grid_new G p w :
  payload_group_id p ≠ group_id (_state w) →
  let members := G (payload_group_id p) in
  let w' := view_group_grid_case G p w in
  _state w' =
    {| rooms := imap (λ i _, grid_entry (next w) i) members;
       currentIndex := Some 0%Z;
       group_id := payload_group_id p |} ∧
  next w' = next w + 2 * length members ∧
  _forwardingEvent w' = _forwardingEvent w ∧
  (∀ i room, members !! i = Some room →
     stores w' !! (next w + 2 * i + 1) =
       Some (reduce (set_room_id room) newStore) ∧
     dispatchers w' !! (next w + 2 * i) =
       Some (Some (next w + 2 * i + 1)) ∧
     PrivateDispatch (next w + 2 * i) (set_room_id room) ∈ trace w').
Proof.
  intros Hne members w'. subst w'. unfold case_view_group_grid.
  rewrite (proj2 (strict_neq_true _ _) Hne).
  pose proof (makeRoomStores_spec members (_cleanupRooms w)) as Hspec.
  fold members.
  destruct (makeRoomStores newStore reduce members (_cleanupRooms w))
    as [es w4].
  destruct Hspec as (Hes & Hn4 & Hst4 & Hf4 & Hnew & _ & Ht4).
  cbn [fst snd] in *.
  destruct (cleanupRooms_frame w) as (_ & Hcn & Hcf).
  rewrite Hcn in Hes, Hn4, Hnew, Ht4.
  split; [|split; [|split]].
  - unfold _setCurrentGroupRoom, _setState, Object_assign. simpl.
    by rewrite Hes.
  - exact Hn4.
  - simpl. by rewrite Hf4.
  - intros i room Hi. destruct (Hnew i room Hi) as [Hs Hd].
    split; [exact Hs|]. split; [exact Hd|].
    unfold _setCurrentGroupRoom, _setState. cbn [trace log with_state].
    rewrite Ht4. apply elem_of_app. left. apply elem_of_app. left.
    apply elem_of_app. right.
    apply list_elem_of_lookup. exists i.
    rewrite list_lookup_imap, Hi. reflexivity.
Qed.

(** *** Dispatch by action name *)

Lemma onDispatch_view_room G p w :
  action p = "view_room" → onDispatch G p w = view_room_case p w.
Proof. unfold __onDispatch. by intros ->. Qed.

Lemma onDispatch_view_group_grid G p w :
  action p = "view_group_grid" →
  onDispatch G p w = view_group_grid_case G p w.
Proof. unfold __onDispatch. by intros ->. Qed.

(** Every action other than [view_room] and [view_group_grid] either
    tears all entries down or leaves the router state as it is. *)
Lemma onDispatch_other_state G p w :
  action p ≠ "view_room" → action p ≠ "view_group_grid" →
  _state (onDispatch G p w) = empty_state ∨
  _state (onDispatch G p w) = _state w.
Proof.
  intros Hvr Hgg. unfold __onDispatch.
  rewrite (proj2 (String.eqb_neq _ _) Hvr).
  rewrite (proj2 (String.eqb_neq _ _) Hgg).
  destruct (_ || _); [left; apply cleanupRooms_state|].
  right. destruct (bool_decide _); [apply forwardAction_state|].
  by destruct (String.eqb _ _).
Qed.

(** *** The invariant of the router state *)

Lemma index_ok_empty : index_ok empty_state.
Proof. by split. Qed.

Lemma onDispatch_index_ok G p w :
  index_ok (_state w) → index_ok (_state (onDispatch G p w)).
Proof.
  intros Hok.
  destruct (decide (action p = "view_room")) as [Hvr|Hvr].
  { rewrite onDispatch_view_room by done.
    destruct (case_view_room_state p w)
      as [[Hm ->]|[(_ & _ & ->)|[_ ->]]]; [|done|].
    - destruct (roomIndex_spec p w) as [[_ Hno]|(e & Hr & _)].
      + by rewrite (matches_current_hasRoom _ _ Hm) in Hno.
      + by left.
    - left. simpl. lia. }
  destruct (decide (action p = "view_group_grid")) as [Hgg|Hgg].
  { rewrite onDispatch_view_group_grid by done.
    destruct (decide (payload_group_id p = group_id (_state w)))
      as [Heq|Hne].
    - by rewrite case_view_group_grid_same.
    - destruct (case_view_group_grid_new G p w Hne) as (-> & _).
      unfold index_ok. simpl. rewrite length_imap.
      destruct (G (payload_group_id p)); simpl; [by right|left; lia]. }
  destruct (onDispatch_other_state G p w Hvr Hgg) as [->| ->];
    [apply index_ok_empty|done].
Qed.

Lemma reachable_index_ok w : Reachable w → index_ok (_state w).
Proof.
  induction 1 as [|G p w _ IH|p e w _ IH|p r w _ IH].
  - apply index_ok_empty.
  - by apply onDispatch_index_ok.
  - unfold _resolveRoomAlias_rejected. by rewrite forwardAction_state.
  - exact IH.
Qed.

(** *** Allocation discipline *)

Lemma allocated_dispatch d p w :
  allocated w → allocated (dispatch reduce d p w).
Proof.
  intros (Hs & Hd & Hr). unfold dispatch.
  destruct (dispatchers w !! d) as [[s|]|]; [|done..].
  split; [|done]. simpl. intros l.
  rewrite lookup_alter_is_Some. apply Hs.
Qed.

Lemma allocated_forwardAction p w :
  allocated w → allocated (forwardAction p w).
Proof.
  unfold _forwardAction. destruct (_getCurrentRoom w); [|done].
  apply allocated_dispatch.
Qed.

Lemma allocated_unregister d token w :
  allocated w → allocated (unregister d token w).
Proof.
  intros (Hs & Hd & Hr). unfold unregister.
  destruct (dispatchers w !! d) as [[s|]|] eqn:Hlook; [|done..].
  destruct (bool_decide (s = token)); [|done].
  split; [done|]. split; [|done]. simpl. intros l.
  rewrite lookup_insert_is_Some'. intros [<-|Hl]; [|by apply Hd].
  apply Hd. by eexists.
Qed.

Lemma allocated_unregister_all (l : list Entry) w :
  allocated w →
  allocated (foldl (λ w room,
                      unregister (dispatcher room)
                        (getDispatchToken (store room)) w) w l).
Proof.
  revert w. induction l as [|e l IH]; intros w Hw; simpl; [done|].
  by apply IH, allocated_unregister.
Qed.

Lemma allocated_cleanupRooms w : allocated w → allocated (_cleanupRooms w).
Proof.
  intros Hw.
  destruct (allocated_unregister_all (rooms (_state w)) w Hw)
    as (Hs & Hd & _).
  unfold _cleanupRooms, _setState. split; [done|]. split; [done|].
  simpl. intros e He. by apply elem_of_nil in He.
Qed.

Lemma allocated_createRoom w : allocated w → allocated (createRoom w).
Proof.
  intros (Hs & Hd & Hr). unfold allocated. simpl.
  split; [|split].
  - intros l. rewrite lookup_insert_is_Some'.
    intros [<-|Hl]; [lia|]. specialize (Hs l Hl). lia.
  - intros l. rewrite !lookup_insert_is_Some'.
    intros [<-|[<-|Hl]]; [lia..|]. specialize (Hd l Hl). lia.
  - intros e He. apply list_elem_of_singleton in He as ->. simpl. lia.
Qed.

Lemma allocated_makeRoomStores members w :
  allocated w →
  allocated (makeRoomStores newStore reduce members w).2.
Proof.
  revert w. induction members as [|room rest IH]; intros w Hw; [done|].
  cbn [makeRoomStores].
  unfold new_MatrixDispatcher, new_RoomViewStore. cbv zeta.
  set (w3 := dispatch reduce (next w) (set_room_id room) _).
  assert (H3 : allocated w3).
  { subst w3. apply allocated_dispatch.
    destruct Hw as (Hs & Hd & Hr). unfold allocated. simpl.
    split; [|split].
    - intros l. rewrite lookup_insert_is_Some'.
      intros [<-|Hl]; [lia|]. specialize (Hs l Hl). lia.
    - intros l. rewrite !lookup_insert_is_Some'.
      intros [<-|[<-|Hl]]; [lia..|]. specialize (Hd l Hl). lia.
    - intros e He. destruct (Hr e He). lia. }
  specialize (IH w3 H3).
  by destruct (makeRoomStores newStore reduce rest w3) as [es w4].
Qed.

Lemma allocated_case_view_group_grid G p w :
  allocated w → allocated (view_group_grid_case G p w).
Proof.
  intros Hw.
  destruct (decide (payload_group_id p = group_id (_state w)))
    as [Heq|Hne]; [by rewrite case_view_group_grid_same|].
  destruct (case_view_group_grid_new G p w Hne) as (Hst & Hn & _).
  unfold case_view_group_grid in *.
  rewrite (proj2 (strict_neq_true _ _) Hne) in *.
  pose proof (allocated_makeRoomStores (G (payload_group_id p))
                (_cleanupRooms w) (allocated_cleanupRooms w Hw)) as H4.
  destruct (makeRoomStores newStore reduce (G (payload_group_id p))
              (_cleanupRooms w)) as [es w4].
  destruct H4 as (Hs4 & Hd4 & _). cbn [snd] in *.
  split; [exact Hs4|]. split; [exact Hd4|].
  rewrite Hst, Hn. simpl. intros e He.
  apply elem_of_lookup_imap in He as (i & room & -> & Hi).
  apply lookup_lt_Some in Hi. unfold grid_entry. simpl. lia.
Qed.

Lemma allocated_case_view_room p w :
  allocated w → allocated (view_room_case p w).
Proof.
  intros Hw. unfold case_view_room.
  set (w1 := if negb (truthy (room_id p)) && truthy (room_alias p)
             then _resolveRoomAlias p w else w).
  assert (H1 : allocated w1) by (subst w1; by destruct (_ && _)).
  set (w2 := if matches p (deref w1 (getCurrentRoomStore w1)) then _ else w1).
  assert (H2 : allocated w2).
  { subst w2. destruct (matches _ _); [|done].
    destruct (hasRoom p w1); [done|by apply allocated_cleanupRooms]. }
  set (w3 := if negb (bool_decide (is_Some (getCurrentRoomStore w2)))
             then createRoom w2 else w2).
  assert (H3 : allocated w3).
  { subst w3. destruct (bool_decide (is_Some (getCurrentRoomStore w2)));
      [done|by apply allocated_createRoom]. }
  pose proof (allocated_forwardAction p w3 H3) as H4.
  by destruct (truthy (_forwardingEvent (forwardAction p w3))).
Qed.

Lemma allocated_onDispatch G p w :
  allocated w → allocated (onDispatch G p w).
Proof.
  intros Hw. unfold __onDispatch.
  destruct (String.eqb _ _); [by apply allocated_case_view_room|].
  destruct (_ || _);
    [by apply allocated_cleanupRooms, allocated_forwardAction|].
  destruct (bool_decide _); [by apply allocated_forwardAction|].
  destruct (String.eqb _ _); [done|].
  destruct (String.eqb _ _); [by apply allocated_case_view_group_grid|done].
Qed.

(** In a reachable world nothing refers to a reference at or above
    [next]: what is allocated next is not in use. *)
Lemma reachable_allocated w : Reachable w → allocated w.
Proof.
  induction 1 as [|G p w _ IH|p e w _ IH|p r w _ IH].
  - split; [|split].
    + intros l [x Hx]. simpl in Hx. by rewrite lookup_empty in Hx.
    + intros l [x Hx]. simpl in Hx. by rewrite lookup_empty in Hx.
    + intros e He. by apply elem_of_nil in He.
  - by apply allocated_onDispatch.
  - by apply allocated_forwardAction.
  - exact IH.
Qed.

(** C1: in every reachable router state a non-null [currentIndex] is a
    valid index into [rooms], except that it is 0 over an empty [rooms]
    after a grid was opened on a group without member rooms. *)
Theorem currentIndex_valid_or_empty_grid w i :
  reachable newStore reduce getRoomId getRoomAlias w →
  currentIndex (_state w) = Some i →
  (0 ≤ i < Z.of_nat (length (rooms (_state w))))%Z ∨
  (i = 0%Z ∧ rooms (_state w) = []).
Proof.
  intros Hreach Hi. apply reachable_index_ok in Hreach.
  unfold index_ok in Hreach. by rewrite Hi in Hreach.
Qed.

(** C2: in every reachable router state [group_id] is null whenever
    [currentIndex] is null, the router then being empty; a [view_room]
    handled while [group_id] is null leaves it null, also when it
    creates the sole entry of an empty router; and a [view_group_grid]
    with a new group id sets [group_id] to it whatever the number of
    member rooms. *)
Theorem group_id_null_without_grid w :
  reachable newStore reduce getRoomId getRoomAlias w →
  (currentIndex (_state w) = None →
   rooms (_state w) = [] ∧ group_id (_state w) = JNull) ∧
  (group_id (_state w) = JNull →
   ∀ G p, action p = "view_room" →
     group_id
       (_state (__onDispatch newStore reduce getRoomId getRoomAlias G p w))
     = JNull) ∧
  (∀ G p, action p = "view_group_grid" →
     payload_group_id p ≠ group_id (_state w) →
     group_id
       (_state (__onDispatch newStore reduce getRoomId getRoomAlias G p w))
     = payload_group_id p).
Proof.
  intros Hreach. split; [|split].
  - intros Hnone. apply reachable_index_ok in Hreach.
    unfold index_ok in Hreach. by rewrite Hnone in Hreach.
  - intros Hnull G p Hp. rewrite onDispatch_view_room by done.
    by destruct (case_view_room_state p w)
      as [[_ ->]|[(_ & _ & ->)|[_ ->]]].
  - intros G p Hp Hne. rewrite onDispatch_view_group_grid by done.
    by destruct (case_view_group_grid_new G p w Hne) as (-> & _).
Qed.

(** C7: a second [view_group_grid] with the group id of the one just
    handled changes nothing. *)
Theorem view_group_grid_idempotent G1 G2 p1 p2 w :
  action p1 = "view_group_grid" →
  action p2 = "view_group_grid" →
  payload_group_id p2 = payload_group_id p1 →
  let w1 := __onDispatch newStore reduce getRoomId getRoomAlias G1 p1 w in
  __onDispatch newStore reduce getRoomId getRoomAlias G2 p2 w1 = w1.
Proof.
  intros H1 H2 Hsame w1. subst w1.
  rewrite (onDispatch_view_group_grid G2 p2) by done.
  apply case_view_group_grid_same. rewrite Hsame.
  rewrite onDispatch_view_group_grid by done.
  destruct (decide (payload_group_id p1 = group_id (_state w)))
    as [Heq|Hne].
  - by rewrite case_view_group_grid_same.
  - by destruct (case_view_group_grid_new G1 p1 w Hne) as (-> & _).
Qed.

(** C10: the read accessors stay within [rooms] in every router state.
    [getCurrentRoomStore] returns a store exactly when [currentIndex] is
    a number within the bounds of [rooms], and then the store of the
    entry at that index; it returns nothing when [currentIndex] is null
    or out of bounds.  [getRoomStores] returns the stores of the entries
    of [rooms], in order. *)
Theorem accessors_within_bounds w :
  (∀ s, getCurrentRoomStore w = Some s ↔
        ∃ i e, currentIndex (_state w) = Some i ∧
               (0 ≤ i < Z.of_nat (length (rooms (_state w))))%Z ∧
               rooms (_state w) !! Z.to_nat i = Some e ∧
               store e = s) ∧
  ((currentIndex (_state w) = None ∨
    ∃ i, currentIndex (_state w) = Some i ∧
         ¬ (0 ≤ i < Z.of_nat (length (rooms (_state w))))%Z) →
   getCurrentRoomStore w = None) ∧
  length (getRoomStores w) = length (rooms (_state w)) ∧
  (∀ i, getRoomStores w !! i = store <$> rooms (_state w) !! i).
Proof.
  assert (Hiff : ∀ s, getCurrentRoomStore w = Some s ↔
        ∃ i e, currentIndex (_state w) = Some i ∧
               (0 ≤ i < Z.of_nat (length (rooms (_state w))))%Z ∧
               rooms (_state w) !! Z.to_nat i = Some e ∧
               store e = s).
  { intros s. rewrite getCurrentRoomStore_Some. split.
    - intros (e & He & Hs). apply getCurrentRoom_Some in He as (i & ? & ? & ?).
      by exists i, e.
    - intros (i & e & ? & ? & ? & ?). exists e. split; [|done].
      apply getCurrentRoom_Some. by exists i. }
  split; [exact Hiff|]. split; [|split].
  - intros Hbad. destruct (getCurrentRoomStore w) as [s|] eqn:Hs; [|done].
    destruct (proj1 (Hiff s) eq_refl) as (i & e & Hi & Hr & _).
    destruct Hbad as [Hnone|(j & Hj & Hout)]; [congruence|].
    rewrite Hi in Hj. injection Hj as <-. done.
  - unfold getRoomStores. apply length_fmap.
  - intros i. unfold getRoomStores. apply list_lookup_fmap.
Qed.

(** *** Effects are only ever appended *)

Lemma dispatch_prefix d p w :
  trace w `prefix_of` trace (dispatch reduce d p w).
Proof. rewrite dispatch_trace. by apply prefix_app_r. Qed.

Lemma forwardAction_prefix p w :
  trace w `prefix_of` trace (forwardAction p w).
Proof.
  unfold _forwardAction. destruct (_getCurrentRoom w); [|done].
  apply dispatch_prefix.
Qed.

Lemma unregister_prefix d token w :
  trace w `prefix_of` trace (unregister d token w).
Proof.
  unfold unregister.
  destruct (dispatchers w !! d) as [[s|]|]; simpl;
    [destruct (bool_decide (s = token)); simpl|..];
    by apply prefix_app_r.
Qed.

Lemma unregister_all_prefix (l : list Entry) w :
  trace w `prefix_of`
  trace (foldl (λ w room,
                  unregister (dispatcher room)
                    (getDispatchToken (store room)) w) w l).
Proof.
  revert w. induction l as [|e l IH]; intros w; simpl; [done|].
  etrans; [apply unregister_prefix|apply IH].
Qed.

Lemma cleanupRooms_prefix w : trace w `prefix_of` trace (_cleanupRooms w).
Proof.
  unfold _cleanupRooms, _setState. simpl.
  apply prefix_app_r, unregister_all_prefix.
Qed.

Lemma createRoom_prefix w : trace w `prefix_of` trace (createRoom w).
Proof. simpl. by apply prefix_app_r. Qed.

(** The effects of a [view_room] come after the alias lookup it may have
    requested. *)
Lemma case_view_room_prefix p w :
  trace (if negb (truthy (room_id p)) && truthy (room_alias p)
         then _resolveRoomAlias p w else w)
  `prefix_of` trace (view_room_case p w).
Proof.
  unfold case_view_room.
  set (w1 := if negb (truthy (room_id p)) && truthy (room_alias p)
             then _resolveRoomAlias p w else w).
  set (w2 := if matches p (deref w1 (getCurrentRoomStore w1)) then _ else w1).
  set (w3 := if negb (bool_decide (is_Some (getCurrentRoomStore w2)))
             then createRoom w2 else w2).
  set (w4 := forwardAction p w3).
  assert (H12 : trace w1 `prefix_of` trace w2).
  { subst w2. destruct (matches _ _); [|done].
    destruct (hasRoom p w1); [|apply cleanupRooms_prefix].
    simpl. by apply prefix_app_r. }
  assert (H23 : trace w2 `prefix_of` trace w3).
  { subst w3.
    destruct (bool_decide (is_Some (getCurrentRoomStore w2)));
      [done|apply createRoom_prefix]. }
  assert (H34 : trace w3 `prefix_of` trace w4)
    by apply forwardAction_prefix.
  etrans; [exact H12|]. etrans; [exact H23|]. etrans; [exact H34|].
  destruct (truthy (_forwardingEvent w4)); [|done].
  simpl. by apply prefix_app_r.
Qed.

(** C8: a [view_room] with an alias and no room id requests the alias
    lookup; when that lookup fails, the handler leaves [rooms],
    [currentIndex] and [group_id] as they are and, if there is a current
    entry, dispatches one action on that entry's private dispatcher and
    on no other: a [view_room_error] with room id [null] that carries
    the payload's alias and the error of the lookup.  Without a current
    entry it does nothing. *)
Theorem alias_failure_forwarded_to_current G p w :
  action p = "view_room" →
  truthy (room_id p) = false →
  truthy (room_alias p) = true →
  GetRoomIdForAlias p
    ∈ trace (__onDispatch newStore reduce getRoomId getRoomAlias G p w) ∧
  ∀ (e : jsval) (w1 : World),
    let w2 := _resolveRoomAlias_rejected reduce p e w1 in
    _state w2 = _state w1 ∧
    _forwardingEvent w2 = _forwardingEvent w1 ∧
    dispatchers w2 = dispatchers w1 ∧
    next w2 = next w1 ∧
    ∃ q : Payload,
      action q = "view_room_error" ∧
      room_id q = JNull ∧
      room_alias q = room_alias p ∧
      err q = e ∧
      match _getCurrentRoom w1 with
      | Some currentRoom =>
          trace w2 =
            trace w1 ++ [PrivateDispatch (dispatcher currentRoom) q] ∧
          stores w2 =
            match dispatchers w1 !! dispatcher currentRoom with
            | Some (Some s) => alter (reduce q) s (stores w1)
            | _ => stores w1
            end
      | None => w2 = w1
      end.
Proof.
  intros Hp Hid Halias. split.
  - rewrite onDispatch_view_room by done.
    pose proof (case_view_room_prefix p w) as [k Hk].
    rewrite Hid, Halias in Hk. simpl in Hk. rewrite Hk.
    apply elem_of_app. left. apply elem_of_app. right. left.
  - intros e w1 w2. subst w2. unfold _resolveRoomAlias_rejected.
    split; [apply forwardAction_state|].
    destruct (forwardAction_frame (view_room_error p e) w1)
      as (Hd & Hn & Hf).
    split; [exact Hf|]. split; [exact Hd|]. split; [exact Hn|].
    exists (view_room_error p e). do 4 (split; [reflexivity|]).
    unfold _forwardAction.
    destruct (_getCurrentRoom w1) as [currentRoom|]; [|done].
    split; [apply dispatch_trace|apply dispatch_stores].
Qed.


(** *** Switching to an entry that is already open *)

(** The whole effect of a [view_room] that matches the current room:
    besides the change of [currentIndex], the payload is handed to the
    entry switched to, and the effects are the lookup request (for an
    alias without id), the change notification, the private dispatch and
    the pending [send_event], if any. *)
Lemma case_view_room_switch p w e :
  matches p (deref w (getCurrentRoomStore w)) = true →
  (0 ≤ roomIndex p w < Z.of_nat (length (rooms (_state w))))%Z →
  rooms (_state w) !! Z.to_nat (roomIndex p w) = Some e →
  ∃ pre post,
    (pre = [] ∨ pre = [GetRoomIdForAlias p]) ∧
    (post = [] ∨ ∃ q, post = [GlobalDispatch q]) ∧
    trace (view_room_case p w) =
      trace w ++ pre ++ [EmitChange; PrivateDispatch (dispatcher e) p]
              ++ post ∧
    dispatchers (view_room_case p w) = dispatchers w ∧
    next (view_room_case p w) = next w ∧
    stores (view_room_case p w) =
      match dispatchers w !! dispatcher e with
      | Some (Some s) => alter (reduce p) s (stores w)
      | _ => stores w
      end.
Proof.
  intros Hm Hr He. unfold case_view_room.
  destruct (alias_request_frame p w
              (negb (truthy (room_id p)) && truthy (room_alias p)))
    as (Hst1 & Hs1 & Hd1 & Hn1 & Ht1).
  set (pre := if negb (truthy (room_id p)) && truthy (room_alias p)
              then [GetRoomIdForAlias p] else []) in *.
  assert (Hpre : pre = [] ∨ pre = [GetRoomIdForAlias p])
    by (subst pre; destruct (_ && _); by eauto).
  set (w1 := if negb (truthy (room_id p)) && truthy (room_alias p)
             then _resolveRoomAlias p w else w) in *.
  destruct (same_view p w1 w Hst1 Hs1)
    as (Hcur1 & Hcs1 & Hderef & Hidx & Hhas).
  rewrite Hcs1, Hderef, Hhas, Hidx, Hm.
  rewrite (matches_current_hasRoom _ _ Hm).
  set (w2 := _setState _ w1).
  assert (Hst2 : _state w2 =
                 {| rooms := rooms (_state w);
                    currentIndex := Some (roomIndex p w);
                    group_id := group_id (_state w) |})
    by (subst w2; simpl; unfold Object_assign; simpl; by rewrite Hst1).
  assert (Hcur2 : _getCurrentRoom w2 = Some e).
  { apply getCurrentRoom_Some. exists (roomIndex p w).
    rewrite Hst2. simpl. done. }
  assert (Hsome : is_Some (getCurrentRoomStore w2)).
  { apply getCurrentRoomStore_is_Some. rewrite Hcur2. by eexists. }
  rewrite (bool_decide_eq_true_2 _ Hsome). cbn [negb].
  unfold _forwardAction. rewrite Hcur2.
  set (w4 := dispatch reduce (dispatcher e) p w2).
  assert (Ht4 : trace w4 =
                trace w ++ pre ++
                  [EmitChange; PrivateDispatch (dispatcher e) p]).
  { subst w4 w2. rewrite dispatch_trace. simpl. rewrite Ht1.
    by rewrite <- !app_assoc. }
  assert (Hd4 : dispatchers w4 = dispatchers w)
    by (subst w4 w2; rewrite dispatch_dispatchers; simpl; exact Hd1).
  assert (Hn4 : next w4 = next w)
    by (subst w4 w2; rewrite dispatch_next; simpl; exact Hn1).
  assert (Hs4 : stores w4 =
                match dispatchers w !! dispatcher e with
                | Some (Some s) => alter (reduce p) s (stores w)
                | _ => stores w
                end)
    by (subst w4 w2; rewrite dispatch_stores; simpl; by rewrite Hd1, Hs1).
  exists pre.
  destruct (truthy (_forwardingEvent w4)).
  - exists [GlobalDispatch (send_event p (_forwardingEvent w4))].
    split; [done|]. split; [right; by eexists|]. simpl.
    rewrite Ht4. by rewrite <- !app_assoc.
  - exists []. split; [done|]. split; [by left|].
    by rewrite Ht4, app_nil_r.
Qed.

(** C6: a [view_room] that matches the current room, with an entry for
    that room among [rooms], sets [currentIndex] to the index of that
    entry and leaves [rooms] and [group_id] as they are; no dispatcher
    registration changes, no object is allocated, no store appears or
    disappears, and nothing is unregistered.  The payload is handed to
    the store of the entry switched to. *)
Theorem view_room_current_only_switches G p w :
  action p = "view_room" →
  matchesRoom getRoomId getRoomAlias p
    (deref w (getCurrentRoomStore w)) = true →
  _hasRoom getRoomId getRoomAlias p w = true →
  let w' := __onDispatch newStore reduce getRoomId getRoomAlias G p w in
  let roomIndex := _roomIndex getRoomId getRoomAlias p w in
  ∃ e,
    (0 ≤ roomIndex < Z.of_nat (length (rooms (_state w))))%Z ∧
    rooms (_state w) !! Z.to_nat roomIndex = Some e ∧
    matchesRoom getRoomId getRoomAlias p (stores w !! store e) = true ∧
    currentIndex (_state w') = Some roomIndex ∧
    rooms (_state w') = rooms (_state w) ∧
    group_id (_state w') = group_id (_state w) ∧
    dispatchers w' = dispatchers w ∧
    next w' = next w ∧
    stores w' =
      match dispatchers w !! dispatcher e with
      | Some (Some s) => alter (reduce p) s (stores w)
      | _ => stores w
      end ∧
    dom (stores w') = dom (stores w) ∧
    (∀ d token, Unregister d token ∈ trace w' →
                Unregister d token ∈ trace w).
Proof.
  intros Hp Hm Hhas w' idx. subst w' idx.
  rewrite onDispatch_view_room by done.
  destruct (roomIndex_spec p w) as [[_ Hno]|(e & Hr & He & Hme & _)];
    [congruence|].
  exists e. split; [exact Hr|]. split; [exact He|]. split; [exact Hme|].
  destruct (case_view_room_state p w)
    as [[_ Hst]|[(Hm' & _)|[Hnone _]]].
  2: { rewrite Hm in Hm'. discriminate. }
  2: { unfold getCurrentRoomStore in Hm. by rewrite Hnone in Hm. }
  rewrite Hst. simpl.
  destruct (case_view_room_switch p w e Hm Hr He)
    as (pre & post & Hpre & Hpost & Ht & Hd & Hn & Hs).
  repeat (split; [done|]). split.
  - rewrite Hs. destruct (dispatchers w !! dispatcher e) as [[s|]|];
      [apply dom_alter_L|done..].
  - intros d token. rewrite Ht, !elem_of_app.
    intros [?|[Hin|[Hin|Hin]]]; [done|exfalso..].
    + destruct Hpre as [-> | ->]; [by apply elem_of_nil in Hin|].
      by apply list_elem_of_singleton in Hin.
    + apply elem_of_cons in Hin as [?|Hin]; [done|].
      by apply list_elem_of_singleton in Hin.
    + destruct Hpost as [-> | [q ->]]; [by apply elem_of_nil in Hin|].
      by apply list_elem_of_singleton in Hin.
Qed.

(** *** Exact effects of the operations *)

Lemma unregister_trace d token w :
  trace (unregister d token w) = trace w ++ [Unregister d token].
Proof.
  unfold unregister. destruct (dispatchers w !! d) as [[s|]|]; [|done..].
  by destruct (bool_decide (s = token)).
Qed.

Lemma unregister_all_trace (l : list Entry) w :
  trace (foldl (λ w room,
                  unregister (dispatcher room)
                    (getDispatchToken (store room)) w) w l)
  = trace w ++ (unregistered <$> l).
Proof.
  revert w. induction l as [|e l IH]; intros w; simpl.
  - by rewrite app_nil_r.
  - rewrite IH, unregister_trace, <- app_assoc. done.
Qed.

Lemma cleanupRooms_trace w :
  trace (_cleanupRooms w) =
  trace w ++ (unregistered <$> rooms (_state w)) ++ [EmitChange].
Proof.
  unfold _cleanupRooms, _setState. simpl.
  by rewrite unregister_all_trace, <- app_assoc.
Qed.

Lemma forwardAction_trace p w :
  trace (forwardAction p w) =
  trace w ++ match _getCurrentRoom w with
             | Some e => [PrivateDispatch (dispatcher e) p]
             | None => []
             end.
Proof.
  unfold _forwardAction. destruct (_getCurrentRoom w).
  - apply dispatch_trace.
  - by rewrite app_nil_r.
Qed.

Lemma forwardAction_stores p w :
  stores (forwardAction p w) =
  match _getCurrentRoom w with
  | Some e =>
      match dispatchers w !! dispatcher e with
      | Some (Some s) => alter (reduce p) s (stores w)
      | _ => stores w
      end
  | None => stores w
  end.
Proof.
  unfold _forwardAction. destruct (_getCurrentRoom w); [|done].
  apply dispatch_stores.
Qed.

(** The last two steps of the [view_room] case, from a world with a
    current entry: the payload goes to that entry, then a pending event
    is sent on and forgotten. *)
Lemma forward_and_send p w e :
  _getCurrentRoom w = Some e →
  let w4 := forwardAction p w in
  let w5 :=
    if truthy (_forwardingEvent w4) then
      with_forwardingEvent JNull
        (log (GlobalDispatch (send_event p (_forwardingEvent w4))) w4)
    else w4 in
  _state w5 = _state w ∧
  dispatchers w5 = dispatchers w ∧
  next w5 = next w ∧
  stores w5 =
    match dispatchers w !! dispatcher e with
    | Some (Some s) => alter (reduce p) s (stores w)
    | _ => stores w
    end ∧
  _forwardingEvent w5 =
    (if truthy (_forwardingEvent w) then JNull else _forwardingEvent w) ∧
  trace w5 =
    trace w ++ [PrivateDispatch (dispatcher e) p] ++
    (if truthy (_forwardingEvent w)
     then [GlobalDispatch (send_event p (_forwardingEvent w))] else []).
Proof.
  intros Hcur w4 w5.
  destruct (forwardAction_frame p w) as (Hd & Hn & Hf).
  pose proof (forwardAction_state p w) as Hst.
  pose proof (forwardAction_trace p w) as Ht.
  pose proof (forwardAction_stores p w) as Hs.
  rewrite Hcur in Ht, Hs. fold w4 in Hd, Hn, Hf, Hst, Ht, Hs.
  subst w5. rewrite Hf.
  destruct (truthy (_forwardingEvent w)); simpl.
  - rewrite Hst, Hd, Hn, Hs, Ht, <- app_assoc. done.
  - by rewrite Hst, Hd, Hn, Hs, Ht, Hf.
Qed.

Lemma alias_request_forwardingEvent p w (b : bool) :
  _forwardingEvent (if b then _resolveRoomAlias p w else w)
  = _forwardingEvent w.
Proof. by destruct b. Qed.

(** What the entry created by [_createRoom] looks like. *)
Lemma createRoom_frame w :
  _getCurrentRoom (createRoom w) =
    Some {| store := S (next w); dispatcher := next w |} ∧
  next (createRoom w) = S (S (next w)) ∧
  _forwardingEvent (createRoom w) = _forwardingEvent w ∧
  trace (createRoom w) = trace w ++ [EmitChange] ∧
  stores (createRoom w) = <[S (next w) := newStore]> (stores w) ∧
  dispatchers (createRoom w) =
    <[next w := Some (S (next w))]> (dispatchers w).
Proof.
  repeat split; try done. simpl. apply insert_insert_eq.
Qed.

(** The whole [view_room] case: it ends with a current entry [e], which
    was handed the payload.  [created] tells whether [e] was created by
    this handling; [mid] is the change notification, if the state
    changed. *)
Lemma case_view_room_full p w :
  ∃ e (mid : list Effect) (created : bool),
    _getCurrentRoom (view_room_case p w) = Some e ∧
    (mid = [] ∨ mid = [EmitChange]) ∧
    trace (view_room_case p w) =
      trace w
      ++ (if needs_alias_lookup p then [GetRoomIdForAlias p] else [])
      ++ mid ++ [PrivateDispatch (dispatcher e) p]
      ++ (if truthy (_forwardingEvent w)
          then [GlobalDispatch (send_event p (_forwardingEvent w))]
          else []) ∧
    _forwardingEvent (view_room_case p w) =
      (if truthy (_forwardingEvent w) then JNull
       else _forwardingEvent w) ∧
    (if created then
       _getCurrentRoom w = None ∧
       e = {| store := S (next w); dispatcher := next w |} ∧
       rooms (_state (view_room_case p w)) = [e] ∧
       next (view_room_case p w) = S (S (next w)) ∧
       dispatchers (view_room_case p w) =
         <[next w := Some (S (next w))]> (dispatchers w) ∧
       stores (view_room_case p w) =
         <[S (next w) := reduce p newStore]> (stores w)
     else
       is_Some (_getCurrentRoom w) ∧
       e ∈ rooms (_state w) ∧
       rooms (_state (view_room_case p w)) = rooms (_state w) ∧
       next (view_room_case p w) = next w ∧
       dispatchers (view_room_case p w) = dispatchers w ∧
       stores (view_room_case p w) =
         match dispatchers w !! dispatcher e with
         | Some (Some s) => alter (reduce p) s (stores w)
         | _ => stores w
         end).
Proof.
  unfold case_view_room. fold (needs_alias_lookup p).
  destruct (alias_request_frame p w (needs_alias_lookup p))
    as (Hst1 & Hs1 & Hd1 & Hn1 & Ht1).
  pose proof (alias_request_forwardingEvent p w (needs_alias_lookup p))
    as Hf1.
  set (w1 := if needs_alias_lookup p then _resolveRoomAlias p w else w)
    in *.
  destruct (same_view p w1 w Hst1 Hs1)
    as (Hcur1 & Hcs1 & Hderef & Hidx & Hhas).
  rewrite Hcs1, Hderef, Hhas, Hidx.
  destruct (matches p (deref w (getCurrentRoomStore w))) eqn:Hm.
  - (* the current room matches: switch to its first entry *)
    rewrite (matches_current_hasRoom _ _ Hm).
    destruct (roomIndex_spec p w) as [[_ Hno]|(e & Hr & He & _ & _)];
      [by rewrite (matches_current_hasRoom _ _ Hm) in Hno|].
    set (w2 := _setState _ w1).
    assert (Hst2 : _state w2 =
                   {| rooms := rooms (_state w);
                      currentIndex := Some (roomIndex p w);
                      group_id := group_id (_state w) |})
      by (subst w2; simpl; unfold Object_assign; simpl; by rewrite Hst1).
    assert (Hcur2 : _getCurrentRoom w2 = Some e).
    { apply getCurrentRoom_Some. exists (roomIndex p w).
      rewrite Hst2. simpl. done. }
    assert (Hsome : is_Some (getCurrentRoomStore w2)).
    { apply getCurrentRoomStore_is_Some. rewrite Hcur2. by eexists. }
    rewrite (bool_decide_eq_true_2 _ Hsome). cbn [negb].
    destruct (forward_and_send p w2 e Hcur2)
      as (Hst & Hd & Hn & Hs & Hf & Ht).
    exists e, [EmitChange], false.
    split; [by rewrite (getCurrentRoom_state _ _ Hst)|].
    split; [by right|].
    split; [rewrite Ht; subst w2; simpl; rewrite Ht1, Hf1;
            by rewrite <- !app_assoc|].
    split; [rewrite Hf; subst w2; simpl; by rewrite Hf1|].
    split.
    { destruct (getCurrentRoomStore w) as [s|] eqn:Hcs; [|done].
      apply getCurrentRoomStore_Some in Hcs as (e0 & -> & _).
      by eexists. }
    split; [by eapply list_elem_of_lookup_2|].
    split; [by rewrite Hst, Hst2|].
    split; [rewrite Hn; subst w2; simpl; exact Hn1|].
    split; [rewrite Hd; subst w2; simpl; exact Hd1|].
    rewrite Hs. subst w2. simpl. by rewrite Hd1, Hs1.
  - destruct (_getCurrentRoom w) as [e|] eqn:Hcur.
    + (* another room is current: keep the state *)
      assert (Hsome : is_Some (getCurrentRoomStore w1)).
      { apply getCurrentRoomStore_is_Some. rewrite Hcur1. by eexists. }
      rewrite (bool_decide_eq_true_2 _ Hsome). cbn [negb].
      destruct (forward_and_send p w1 e Hcur1)
        as (Hst & Hd & Hn & Hs & Hf & Ht).
      exists e, [], false.
      split; [by rewrite (getCurrentRoom_state _ _ Hst), Hcur1|].
      split; [by left|].
      split; [rewrite Ht, Ht1, Hf1; by rewrite <- !app_assoc|].
      split; [by rewrite Hf, Hf1|].
      split; [by eexists|].
      split.
      { apply getCurrentRoom_Some in Hcur as (i & _ & _ & Hi).
        by eapply list_elem_of_lookup_2. }
      split; [by rewrite Hst, Hst1|].
      split; [by rewrite Hn|]. split; [by rewrite Hd|].
      by rewrite Hs, Hd1, Hs1.
    + (* no current entry: create one *)
      assert (Hnone : ¬ is_Some (getCurrentRoomStore w1)).
      { rewrite getCurrentRoomStore_is_Some, Hcur1. by intros [? ?]. }
      rewrite (bool_decide_eq_false_2 _ Hnone). cbn [negb].
      destruct (createRoom_frame w1) as (Hc3 & Hn3 & Hf3 & Ht3 & Hs3 & Hd3).
      rewrite Hn1 in Hc3.
      destruct (forward_and_send p (createRoom w1) _ Hc3)
        as (Hst & Hd & Hn & Hs & Hf & Ht).
      exists {| store := S (next w); dispatcher := next w |},
        [EmitChange], true.
      split; [by rewrite (getCurrentRoom_state _ _ Hst)|].
      split; [by right|].
      split; [rewrite Ht, Ht3, Ht1, Hf3, Hf1; by rewrite <- !app_assoc|].
      split; [by rewrite Hf, Hf3, Hf1|].
      split; [done|]. split; [done|].
      split; [rewrite Hst, createRoom_state; simpl; by rewrite Hn1|].
      split; [by rewrite Hn, Hn3, Hn1|].
      split; [by rewrite Hd, Hd3, Hn1, Hd1|].
      rewrite Hs, Hd3, Hs3, Hn1, Hs1. cbn [dispatcher].
      rewrite lookup_insert_eq. apply alter_insert_eq.
Qed.

(** *** Entries stay wired to their own store *)

Lemma wired_dispatch d p w : wired w → wired (dispatch reduce d p w).
Proof.
  intros (Hnd & Hns & Hw). unfold wired.
  rewrite dispatch_state, dispatch_dispatchers, dispatch_stores.
  split; [done|]. split; [done|].
  intros e He. destruct (Hw e He) as [Hd Hs]. split; [done|].
  destruct (dispatchers w !! d) as [[s|]|]; [|done..].
  by apply lookup_alter_is_Some.
Qed.

Lemma wired_forwardAction p w : wired w → wired (forwardAction p w).
Proof.
  unfold _forwardAction. destruct (_getCurrentRoom w); [|done].
  apply wired_dispatch.
Qed.

Lemma wired_no_rooms w : rooms (_state w) = [] → wired w.
Proof.
  intros Hnil. unfold wired. rewrite Hnil.
  split; [constructor|]. split; [constructor|].
  intros e He. by apply elem_of_nil in He.
Qed.

Lemma grid_entries_NoDup (n : loc) (members : list GroupRoom) :
  NoDup (dispatcher <$> imap (λ i _, grid_entry n i) members) ∧
  NoDup (store <$> imap (λ i _, grid_entry n i) members).
Proof.
  split; apply NoDup_alt; intros i j x;
    rewrite !list_lookup_fmap, !list_lookup_imap;
    destruct (members !! i), (members !! j); simpl;
    intros [= <-] [= Heq]; lia.
Qed.

Lemma wired_case_view_group_grid G p w :
  wired w → wired (view_group_grid_case G p w).
Proof.
  intros Hw.
  destruct (decide (payload_group_id p = group_id (_state w)))
    as [Heq|Hne]; [by rewrite case_view_group_grid_same|].
  destruct (case_view_group_grid_new G p w Hne) as (Hst & _ & _ & Hnew).
  unfold wired. rewrite Hst. cbn [rooms].
  destruct (grid_entries_NoDup (next w) (G (payload_group_id p)))
    as [Hnd Hns].
  split; [done|]. split; [done|].
  intros e He. apply elem_of_lookup_imap in He as (i & room & -> & Hi).
  destruct (Hnew i room Hi) as (Hs & Hd & _).
  unfold grid_entry. cbn [store dispatcher]. split; [exact Hd|].
  by eexists.
Qed.

Lemma wired_case_view_room p w : wired w → wired (view_room_case p w).
Proof.
  intros (Hnd & Hns & Hw).
  destruct (case_view_room_full p w)
    as (e & mid & created & _ & _ & _ & _ & Hcase).
  unfold wired. destruct created.
  - destruct Hcase as (_ & -> & -> & _ & -> & ->). simpl.
    split; [apply NoDup_singleton|]. split; [apply NoDup_singleton|].
    intros e He. apply list_elem_of_singleton in He as ->. simpl.
    by rewrite !lookup_insert_eq.
  - destruct Hcase as (_ & _ & -> & _ & -> & ->).
    split; [done|]. split; [done|].
    intros e' He'. destruct (Hw e' He') as [Hd Hs]. split; [done|].
    destruct (dispatchers w !! dispatcher e) as [[s|]|]; [|done..].
    by apply lookup_alter_is_Some.
Qed.

Lemma wired_onDispatch G p w : wired w → wired (onDispatch G p w).
Proof.
  intros Hw. unfold __onDispatch.
  destruct (String.eqb _ _); [by apply wired_case_view_room|].
  destruct (_ || _); [by apply wired_no_rooms|].
  destruct (bool_decide _); [by apply wired_forwardAction|].
  destruct (String.eqb _ _); [done|].
  destruct (String.eqb _ _); [by apply wired_case_view_group_grid|done].
Qed.

Lemma reachable_wired w : Reachable w → wired w.
Proof.
  induction 1 as [|G p w _ IH|p e w _ IH|p r w _ IH].
  - by apply wired_no_rooms.
  - by apply wired_onDispatch.
  - by apply wired_forwardAction.
  - exact IH.
Qed.

(** *** Teardown *)

Lemma unregister_wired e w :
  dispatchers w !! dispatcher e = Some (Some (store e)) →
  dispatchers (unregister (dispatcher e) (getDispatchToken (store e)) w)
  = <[dispatcher e := None]> (dispatchers w).
Proof.
  intros Hd. unfold unregister, getDispatchToken. rewrite Hd.
  by rewrite bool_decide_eq_true_2.
Qed.

(** Unregistering wired entries with distinct dispatchers leaves each of
    those dispatchers without a handler, and no other dispatcher
    changed. *)
Lemma unregister_all_dispatchers (l : list Entry) w :
  NoDup (dispatcher <$> l) →
  (∀ e, e ∈ l → dispatchers w !! dispatcher e = Some (Some (store e))) →
  let w' :=
    foldl (λ w room,
             unregister (dispatcher room) (getDispatchToken (store room)) w)
      w l in
  (∀ e, e ∈ l → dispatchers w' !! dispatcher e = Some None) ∧
  (∀ d : loc, d ∉ dispatcher <$> l →
              dispatchers w' !! d = dispatchers w !! d).
Proof.
  revert w. induction l as [|e l IH]; intros w Hnd Hw; simpl.
  - split; [|done]. intros e He. by apply elem_of_nil in He.
  - cbn [fmap list_fmap] in Hnd. apply NoDup_cons in Hnd as [Hfresh Hnd].
    pose proof (unregister_wired e w (Hw e ltac:(left))) as H1.
    set (w1 := unregister (dispatcher e) (getDispatchToken (store e)) w)
      in *.
    assert (Hw1 : ∀ e', e' ∈ l →
              dispatchers w1 !! dispatcher e' = Some (Some (store e'))).
    { intros e' He'. rewrite H1, lookup_insert_ne.
      - apply Hw. by right.
      - intros Heq. apply Hfresh. rewrite Heq.
        by apply list_elem_of_fmap_2. }
    destruct (IH w1 Hnd Hw1) as [Hnone Hframe].
    split.
    + intros e' He'. apply elem_of_cons in He' as [->|He'];
        [|by apply Hnone].
      etrans; [apply (Hframe (dispatcher e) Hfresh)|].
      rewrite H1. apply lookup_insert_eq.
    + intros d Hd. apply not_elem_of_cons in Hd as [Hne Hd].
      etrans; [apply (Hframe d Hd)|].
      rewrite H1. by apply lookup_insert_ne.
Qed.

Lemma cleanupRooms_dispatchers w :
  wired w →
  (∀ e, e ∈ rooms (_state w) →
        dispatchers (_cleanupRooms w) !! dispatcher e = Some None) ∧
  (∀ d : loc, d ∉ dispatcher <$> rooms (_state w) →
              dispatchers (_cleanupRooms w) !! d = dispatchers w !! d).
Proof.
  intros (Hnd & _ & Hw). unfold _cleanupRooms, _setState. simpl.
  apply unregister_all_dispatchers; [done|].
  intros e He. by destruct (Hw e He).
Qed.

(** *** The first match *)

Lemma findIndex_from_least {A} (f : A → bool) (l : list A) k n x :
  l !! n = Some x → f x = true →
  (findIndex_from f l k ≤ k + Z.of_nat n)%Z.
Proof.
  revert k n. induction l as [|y l IH]; intros k n Hn Hx; [done|].
  simpl. destruct (f y) eqn:Hy; [lia|].
  destruct n as [|n]; simpl in Hn.
  - injection Hn as ->. congruence.
  - specialize (IH (k + 1)%Z n Hn Hx). lia.
Qed.

Lemma findIndex_from_before {A} (f : A → bool) (l : list A) k n x :
  (0 ≤ k)%Z →
  l !! n = Some x → (k + Z.of_nat n < findIndex_from f l k)%Z →
  f x = false.
Proof.
  revert k n. induction l as [|y l IH]; intros k n Hk Hn Hlt; [done|].
  simpl in Hlt. destruct (f y) eqn:Hy; [lia|].
  destruct n as [|n]; simpl in Hn.
  - by injection Hn as <-.
  - apply (IH (k + 1)%Z n); [lia|done|lia].
Qed.

(** *** Further properties of the router *)

(** X1: in every reachable world each entry of [rooms] refers to an
    allocated dispatcher and store, the dispatcher has exactly that
    entry's store registered, and no two entries share a dispatcher or
    a store. *)
Theorem reachable_entries_wired w :
  reachable newStore reduce getRoomId getRoomAlias w →
  NoDup (dispatcher <$> rooms (_state w)) ∧
  NoDup (getRoomStores w) ∧
  ∀ e, e ∈ rooms (_state w) →
    dispatchers w !! dispatcher e = Some (Some (store e)) ∧
    is_Some (stores w !! store e) ∧
    dispatcher e < next w ∧ store e < next w.
Proof.
  intros Hreach.
  destruct (reachable_wired w Hreach) as (Hnd & Hns & Hw).
  destruct (reachable_allocated w Hreach) as (_ & _ & Hr).
  split; [done|]. split; [done|].
  intros e He. destruct (Hw e He) as [Hd Hs]. destruct (Hr e He).
  done.
Qed.

(** X2: whatever the state, handling a [view_room] ends with a current
    entry, and the payload is dispatched exactly once on a private
    dispatcher, that of this entry. *)
Theorem view_room_ends_with_current G p w :
  action p = "view_room" →
  let w' := __onDispatch newStore reduce getRoomId getRoomAlias G p w in
  ∃ e before after,
    _getCurrentRoom w' = Some e ∧
    getCurrentRoomStore w' = Some (store e) ∧
    trace w' =
      trace w ++ before ++ [PrivateDispatch (dispatcher e) p] ++ after ∧
    (∀ d q, PrivateDispatch d q ∉ before ++ after).
Proof.
  intros Hp w'. subst w'. rewrite onDispatch_view_room by done.
  destruct (case_view_room_full p w)
    as (e & mid & created & Hcur & Hmid & Ht & _).
  exists e,
    ((if needs_alias_lookup p then [GetRoomIdForAlias p] else []) ++ mid),
    (if truthy (_forwardingEvent w)
     then [GlobalDispatch (send_event p (_forwardingEvent w))] else []).
  split; [exact Hcur|].
  split; [unfold getCurrentRoomStore; by rewrite Hcur|].
  split; [rewrite Ht; by rewrite <- !app_assoc|].
  intros d q Hin. rewrite !elem_of_app in Hin.
  destruct Hin as [[Hin|Hin]|Hin].
  - destruct (needs_alias_lookup p); [|by apply elem_of_nil in Hin].
    by apply list_elem_of_singleton in Hin.
  - destruct Hmid as [-> | ->]; [by apply elem_of_nil in Hin|].
    by apply list_elem_of_singleton in Hin.
  - destruct (truthy (_forwardingEvent w));
      [|by apply elem_of_nil in Hin].
    by apply list_elem_of_singleton in Hin.
Qed.

(** X3: a [view_room] handled without a current entry creates exactly
    one entry from two new references, makes it the sole and current
    entry, registers its store with its dispatcher and hands the payload
    to that new store; [group_id] is left as it was. *)
Theorem view_room_creates_sole_entry G p w :
  action p = "view_room" →
  _getCurrentRoom w = None →
  let w' := __onDispatch newStore reduce getRoomId getRoomAlias G p w in
  let e := {| store := S (next w); dispatcher := next w |} in
  rooms (_state w') = [e] ∧
  currentIndex (_state w') = Some 0%Z ∧
  group_id (_state w') = group_id (_state w) ∧
  getCurrentRoomStore w' = Some (store e) ∧
  dispatchers w' !! dispatcher e = Some (Some (store e)) ∧
  stores w' !! store e = Some (reduce p newStore) ∧
  next w' = S (S (next w)) ∧
  PrivateDispatch (dispatcher e) p ∈ trace w'.
Proof.
  intros Hp Hnone w' e. subst w'. rewrite onDispatch_view_room by done.
  destruct (case_view_room_state p w)
    as [[Hm _]|[(_ & Hsome & _)|[_ Hst]]].
  { unfold getCurrentRoomStore in Hm. by rewrite Hnone in Hm. }
  { rewrite Hnone in Hsome. by destruct Hsome. }
  destruct (case_view_room_full p w)
    as (e' & mid & created & Hcur & _ & Ht & _ & Hcase).
  destruct created.
  2: { destruct Hcase as (Hsome & _). rewrite Hnone in Hsome.
       by destruct Hsome. }
  destruct Hcase as (_ & -> & Hrooms & Hn & Hd & Hs). fold e in Hcur, Ht.
  rewrite Hst. cbn [rooms currentIndex group_id].
  split; [done|]. split; [done|]. split; [done|].
  split; [unfold getCurrentRoomStore; by rewrite Hcur|].
  split; [rewrite Hd; apply lookup_insert_eq|].
  split; [rewrite Hs; apply lookup_insert_eq|].
  split; [exact Hn|].
  rewrite Ht, !elem_of_app. right. right. right. left. left.
Qed.

(** X4: in a reachable world a [view_room] never unregisters or drops an
    entry.  [rooms] is unchanged, or it was empty and now holds one new
    entry; [group_id] and every existing dispatcher registration are as
    before, and no unregistration is performed. *)
Theorem view_room_never_tears_down G p w :
  reachable newStore reduce getRoomId getRoomAlias w →
  action p = "view_room" →
  let w' := __onDispatch newStore reduce getRoomId getRoomAlias G p w in
  (rooms (_state w') = rooms (_state w) ∨
   (rooms (_state w) = [] ∧
    rooms (_state w') =
      [ {| store := S (next w); dispatcher := next w |} ])) ∧
  group_id (_state w') = group_id (_state w) ∧
  (∀ l : loc, is_Some (dispatchers w !! l) →
              dispatchers w' !! l = dispatchers w !! l) ∧
  (∀ d token, Unregister d token ∈ trace w' →
              Unregister d token ∈ trace w).
Proof.
  intros Hreach Hp w'. subst w'. rewrite onDispatch_view_room by done.
  pose proof (reachable_index_ok w Hreach) as Hok.
  destruct (reachable_allocated w Hreach) as (_ & Hda & _).
  destruct (case_view_room_full p w)
    as (e & mid & created & _ & Hmid & Ht & _ & Hcase).
  assert (Hgid : group_id (_state (view_room_case p w))
                 = group_id (_state w))
    by (by destruct (case_view_room_state p w)
          as [[_ ->]|[(_ & _ & ->)|[_ ->]]]).
  split; [|split; [exact Hgid|split]].
  - destruct created.
    + destruct Hcase as (Hnone & -> & Hrooms & _). right.
      split; [|exact Hrooms].
      unfold index_ok in Hok. unfold _getCurrentRoom in Hnone.
      destruct (currentIndex (_state w)) as [i|]; [|by destruct Hok].
      destruct Hok as [Hr|[_ ?]]; [|done].
      destruct (Z.ltb_spec i (Z.of_nat (length (rooms (_state w)))));
        [|lia].
      destruct (lookup_lt_is_Some_2 (rooms (_state w)) (Z.to_nat i)
                  ltac:(lia)) as [x Hx].
      assert (js_index (rooms (_state w)) i = Some x)
        by (apply js_index_Some; split; [lia|done]).
      congruence.
    + destruct Hcase as (_ & _ & Hrooms & _). by left.
  - intros l Hl. destruct created.
    + destruct Hcase as (_ & _ & _ & _ & Hd & _).
      rewrite Hd. apply lookup_insert_ne.
      specialize (Hda l Hl). lia.
    + destruct Hcase as (_ & _ & _ & _ & Hd & _). by rewrite Hd.
  - intros d token. rewrite Ht, !elem_of_app.
    intros [?|[Hin|[Hin|[Hin|Hin]]]]; [done|exfalso..].
    + destruct (needs_alias_lookup p); [|by apply elem_of_nil in Hin].
      by apply list_elem_of_singleton in Hin.
    + destruct Hmid as [-> | ->]; [by apply elem_of_nil in Hin|].
      by apply list_elem_of_singleton in Hin.
    + by apply list_elem_of_singleton in Hin.
    + destruct (truthy (_forwardingEvent w));
        [|by apply elem_of_nil in Hin].
      by apply list_elem_of_singleton in Hin.
Qed.

(** X5: a [view_room] that matches the current room moves
    [currentIndex] to the first entry showing that room: an index at or
    before the previous one, with no matching entry before it. *)
Theorem view_room_switches_to_first_match G p w i :
  action p = "view_room" →
  currentIndex (_state w) = Some i →
  matchesRoom getRoomId getRoomAlias p
    (deref w (getCurrentRoomStore w)) = true →
  let w' := __onDispatch newStore reduce getRoomId getRoomAlias G p w in
  ∃ j e,
    currentIndex (_state w') = Some j ∧
    (0 ≤ j ≤ i)%Z ∧
    rooms (_state w) !! Z.to_nat j = Some e ∧
    matchesRoom getRoomId getRoomAlias p (stores w !! store e) = true ∧
    ∀ k e', rooms (_state w) !! k = Some e' → (Z.of_nat k < j)%Z →
      matchesRoom getRoomId getRoomAlias p (stores w !! store e') = false.
Proof.
  intros Hp Hi Hm w'. subst w'. rewrite onDispatch_view_room by done.
  destruct (roomIndex_spec p w) as [[_ Hno]|(e & Hr & He & Hme & _)];
    [by rewrite (matches_current_hasRoom _ _ Hm) in Hno|].
  exists (roomIndex p w), e.
  destruct (case_view_room_state p w)
    as [[_ Hst]|[(Hm' & _)|[Hnone _]]].
  2: { rewrite Hm in Hm'. discriminate. }
  2: { unfold getCurrentRoomStore in Hm. by rewrite Hnone in Hm. }
  rewrite Hst. cbn [currentIndex].
  split; [done|]. split; [|split; [exact He|split; [exact Hme|]]].
  - split; [lia|].
    destruct (getCurrentRoomStore w) as [s|] eqn:Hcs; [|done].
    apply getCurrentRoomStore_Some in Hcs as (ec & Hec & <-).
    apply getCurrentRoom_Some in Hec as (i' & Hi' & Hri & Hlook).
    rewrite Hi in Hi'. injection Hi' as <-.
    pose proof (findIndex_from_least
                  (λ r, matches p (deref w (Some (store r))))
                  (rooms (_state w)) 0 (Z.to_nat i) ec Hlook Hm) as Hle.
    unfold _roomIndex, findIndex. lia.
  - intros k e' Hk Hlt.
    apply (findIndex_from_before
             (λ r, matches p (deref w (Some (store r))))
             (rooms (_state w)) 0 k e'); [lia|done|].
    unfold _roomIndex, findIndex in Hlt. lia.
Qed.

Lemma onDispatch_teardown G p w :
  action p = "view_my_groups" ∨ action p = "view_group" →
  onDispatch G p w = _cleanupRooms (forwardAction p w).
Proof. unfold __onDispatch. by intros [-> | ->]. Qed.

Lemma onDispatch_passthrough G p w :
  action p ∈ passthrough_actions →
  onDispatch G p w = forwardAction p w.
Proof.
  intros Hin. unfold __onDispatch.
  rewrite (bool_decide_eq_true_2 _ Hin).
  unfold passthrough_actions in Hin.
  repeat (apply elem_of_cons in Hin as [-> | Hin]; [done|]).
  by apply elem_of_nil in Hin.
Qed.


(** X6: [view_my_groups] and [view_group] hand the payload to the
    current entry, if any, then unregister every entry in order and
    leave the router empty; in a reachable world none of the former
    entries' dispatchers has a handler registered afterwards. *)
Theorem teardown_leaves_router_empty G p w :
  action p = "view_my_groups" ∨ action p = "view_group" →
  let w' := __onDispatch newStore reduce getRoomId getRoomAlias G p w in
  _state w' = empty_state ∧
  next w' = next w ∧
  trace w' =
    trace w
    ++ match _getCurrentRoom w with
       | Some e => [PrivateDispatch (dispatcher e) p]
       | None => []
       end
    ++ (unregistered <$> rooms (_state w)) ++ [EmitChange] ∧
  (reachable newStore reduce getRoomId getRoomAlias w →
   ∀ e, e ∈ rooms (_state w) →
        dispatchers w' !! dispatcher e = Some None).
Proof.
  intros Hp w'. subst w'. rewrite onDispatch_teardown by done.
  pose proof (forwardAction_state p w) as Hst.
  split; [apply cleanupRooms_state|].
  split.
  { destruct (cleanupRooms_frame (forwardAction p w)) as (_ & -> & _).
    by destruct (forwardAction_frame p w) as (_ & -> & _). }
  split.
  { rewrite cleanupRooms_trace, forwardAction_trace, Hst.
    by rewrite <- !app_assoc. }
  intros Hreach e He.
  pose proof (wired_forwardAction p w (reachable_wired w Hreach)) as Hw.
  destruct (cleanupRooms_dispatchers _ Hw) as [Hnone _].
  apply Hnone. by rewrite Hst.
Qed.

(** X7: each of the eight lifecycle actions is only forwarded: the
    router state, the pending event and all registrations stay as they
    are, nothing is allocated, and the payload is dispatched once on the
    current entry's dispatcher; without a current entry nothing happens
    at all. *)
Theorem passthrough_only_forwards G p w :
  action p ∈ passthrough_actions →
  let w' := __onDispatch newStore reduce getRoomId getRoomAlias G p w in
  _state w' = _state w ∧
  _forwardingEvent w' = _forwardingEvent w ∧
  dispatchers w' = dispatchers w ∧
  next w' = next w ∧
  match _getCurrentRoom w with
  | Some currentRoom =>
      trace w' = trace w ++ [PrivateDispatch (dispatcher currentRoom) p] ∧
      stores w' =
        match dispatchers w !! dispatcher currentRoom with
        | Some (Some s) => alter (reduce p) s (stores w)
        | _ => stores w
        end
  | None => w' = w
  end.
Proof.
  intros Hp w'. subst w'. rewrite onDispatch_passthrough by done.
  split; [apply forwardAction_state|].
  destruct (forwardAction_frame p w) as (Hd & Hn & Hf).
  split; [exact Hf|]. split; [exact Hd|]. split; [exact Hn|].
  unfold _forwardAction.
  destruct (_getCurrentRoom w) as [currentRoom|]; [|done].
  split; [apply dispatch_trace|apply dispatch_stores].
Qed.

(** X8: only [view_room], [view_my_groups], [view_group] and
    [view_group_grid] can change [rooms], [currentIndex] or [group_id]:
    every other action leaves the router state and the dispatcher
    registrations as they are, allocates nothing and neither adds nor
    removes a store. *)
Theorem other_actions_keep_router_state G p w :
  action p ≠ "view_room" →
  action p ≠ "view_my_groups" →
  action p ≠ "view_group" →
  action p ≠ "view_group_grid" →
  let w' := __onDispatch newStore reduce getRoomId getRoomAlias G p w in
  _state w' = _state w ∧
  dispatchers w' = dispatchers w ∧
  next w' = next w ∧
  dom (stores w') = dom (stores w).
Proof.
  intros H1 H2 H3 H4 w'. subst w'. unfold __onDispatch.
  rewrite (proj2 (String.eqb_neq _ _) H1), (proj2 (String.eqb_neq _ _) H2),
    (proj2 (String.eqb_neq _ _) H3), (proj2 (String.eqb_neq _ _) H4).
  cbn [orb].
  destruct (bool_decide _).
  - split; [apply forwardAction_state|].
    destruct (forwardAction_frame p w) as (Hd & Hn & _).
    split; [exact Hd|]. split; [exact Hn|].
    rewrite forwardAction_stores.
    destruct (_getCurrentRoom w); [|done].
    destruct (dispatchers w !! dispatcher e) as [[s|]|];
      [apply dom_alter_L|done..].
  - by destruct (String.eqb _ _).
Qed.


(** X10: when the alias lookup answers, the router state is untouched
    and one [view_room] is dispatched that carries the resolved id
    together with the alias, event id, highlight, auto-join and
    out-of-band data of the original payload.  Handling that payload
    requests no further lookup when the resolved id is truthy; with a
    missing or empty resolved id and a truthy alias it requests the
    lookup again. *)
Theorem resolved_alias_redispatch p result_room_id w :
  let q := resolved_view_room p result_room_id in
  let w' := _resolveRoomAlias_resolved p result_room_id w in
  _state w' = _state w ∧
  stores w' = stores w ∧
  trace w' = trace w ++ [GlobalDispatch q] ∧
  (truthy result_room_id = true →
   ∀ G w0 x,
     GetRoomIdForAlias x
       ∈ trace (__onDispatch newStore reduce getRoomId getRoomAlias
                  G q w0) →
     GetRoomIdForAlias x ∈ trace w0) ∧
  (truthy result_room_id = false →
   truthy (room_alias p) = true →
   ∀ G w0,
     GetRoomIdForAlias q
       ∈ trace (__onDispatch newStore reduce getRoomId getRoomAlias
                  G q w0)).
Proof.
  intros q w'. subst w'.
  split; [done|]. split; [done|]. split; [done|].
  split.
  - intros Htrue G w0 x. rewrite onDispatch_view_room by done.
    destruct (case_view_room_full q w0)
      as (e & mid & created & _ & Hmid & Ht & _).
    assert (Hno : needs_alias_lookup q = false)
      by (unfold needs_alias_lookup; simpl; by rewrite Htrue).
    rewrite Hno in Ht. rewrite Ht, !elem_of_app.
    intros [?|[Hin|[Hin|[Hin|Hin]]]]; [done|exfalso..].
    + by apply elem_of_nil in Hin.
    + destruct Hmid as [-> | ->]; [by apply elem_of_nil in Hin|].
      by apply list_elem_of_singleton in Hin.
    + by apply list_elem_of_singleton in Hin.
    + destruct (truthy (_forwardingEvent w0));
        [|by apply elem_of_nil in Hin].
      by apply list_elem_of_singleton in Hin.
  - intros Hfalse Halias G w0. rewrite onDispatch_view_room by done.
    destruct (case_view_room_full q w0)
      as (e & mid & created & _ & _ & Ht & _).
    assert (Hyes : needs_alias_lookup q = true)
      by (unfold needs_alias_lookup; simpl; by rewrite Hfalse, Halias).
    rewrite Hyes in Ht. rewrite Ht, !elem_of_app.
    right. left. left.
Qed.

(** The old entries when a grid is opened: they are torn down before the
    new ones are made, and nothing below [next] is written after the
    teardown. *)
Lemma case_view_group_grid_old G p w :
  payload_group_id p ≠ group_id (_state w) →
  trace (_cleanupRooms w) `prefix_of` trace (view_group_grid_case G p w) ∧
  ∀ l : loc, l < next w →
    stores (view_group_grid_case G p w) !! l = stores w !! l ∧
    dispatchers (view_group_grid_case G p w) !! l =
      dispatchers (_cleanupRooms w) !! l.
Proof.
  intros Hne. unfold case_view_group_grid.
  rewrite (proj2 (strict_neq_true _ _) Hne).
  pose proof (makeRoomStores_spec (G (payload_group_id p))
                (_cleanupRooms w)) as Hspec.
  destruct (makeRoomStores newStore reduce (G (payload_group_id p))
              (_cleanupRooms w)) as [es w4].
  destruct Hspec as (_ & _ & _ & _ & _ & Hold & Ht4).
  cbn [fst snd] in *.
  destruct (cleanupRooms_frame w) as (Hcs & Hcn & _).
  split.
  - unfold _setCurrentGroupRoom, _setState. cbn [trace log with_state].
    rewrite Ht4, <- !app_assoc. by apply prefix_app_r.
  - intros l Hl. rewrite Hcn in Hold. destruct (Hold l Hl) as [Hs Hd].
    unfold _setCurrentGroupRoom, _setState.
    cbn [stores dispatchers log with_state].
    split; [etrans; [exact Hs|by rewrite Hcs]|exact Hd].
Qed.

(** X11: opening a grid unregisters every entry that was open; in a
    reachable world the old entries' dispatchers end without a handler,
    their stores are left exactly as they were, and none of them is
    among the new entries. *)
Theorem view_group_grid_unregisters_old G p w :
  action p = "view_group_grid" →
  payload_group_id p ≠ group_id (_state w) →
  let w' := __onDispatch newStore reduce getRoomId getRoomAlias G p w in
  (∀ e, e ∈ rooms (_state w) → unregistered e ∈ trace w') ∧
  (reachable newStore reduce getRoomId getRoomAlias w →
   ∀ e, e ∈ rooms (_state w) →
     dispatchers w' !! dispatcher e = Some None ∧
     stores w' !! store e = stores w !! store e ∧
     e ∉ rooms (_state w')).
Proof.
  intros Hp Hne w'. subst w'.
  rewrite onDispatch_view_group_grid by done.
  destruct (case_view_group_grid_old G p w Hne) as [[k Hk] Hold].
  split.
  - intros e He. rewrite Hk, cleanupRooms_trace, !elem_of_app.
    left. right. left. by apply list_elem_of_fmap_2.
  - intros Hreach e He.
    destruct (reachable_allocated w Hreach) as (_ & _ & Hr).
    destruct (Hr e He) as [Hse Hde].
    destruct (cleanupRooms_dispatchers w (reachable_wired w Hreach))
      as [Hnone _].
    split; [|split].
    + etrans; [apply (proj2 (Hold (dispatcher e) Hde))|by apply Hnone].
    + apply (proj1 (Hold (store e) Hse)).
    + destruct (case_view_group_grid_new G p w Hne) as (Hst & _).
      rewrite Hst. cbn [rooms]. intros Hin.
      apply elem_of_lookup_imap in Hin as (i & room & -> & _).
      unfold grid_entry in Hde. cbn [dispatcher] in Hde. lia.
Qed.

End facts.

End OpenRoomsStoreFacts.

(** ** The router on concrete traces *)

Module Scenarios.
Import OpenRoomsStore OpenRoomsStoreFacts SimpleStore.

Lemma after_empty_grid_reachable : reachable after_empty_grid.
Proof. apply reachable_dispatch, reachable_constructor. Qed.

Lemma after_view_room_reachable : reachable after_view_room.
Proof. apply reachable_dispatch, reachable_constructor. Qed.

(** C1, as stated, fails: opening the grid of a group without member
    rooms leaves [currentIndex] at 0 over an empty [rooms]. *)
Lemma currentIndex_dangling_after_empty_grid :
  reachable after_empty_grid ∧
  currentIndex (_state after_empty_grid) = Some 0%Z ∧
  rooms (_state after_empty_grid) = [] ∧
  ¬ (0 ≤ 0 < Z.of_nat (length (rooms (_state after_empty_grid))))%Z.
Proof.
  split; [apply after_empty_grid_reachable|].
  split; [reflexivity|]. split; [reflexivity|].
  vm_compute. intros [_ H]. discriminate H.
Qed.

Lemma currentIndex_valid_or_empty_grid_witness :
  reachable after_view_room ∧
  currentIndex (_state after_view_room) = Some 0%Z ∧
  ((0 ≤ 0 < Z.of_nat (length (rooms (_state after_view_room))))%Z ∨
   (0%Z = 0%Z ∧ rooms (_state after_view_room) = [])).
Proof.
  split; [apply after_view_room_reachable|].
  split; [reflexivity|].
  apply (currentIndex_valid_or_empty_grid initial reduce getRoomId
           getRoomAlias after_view_room 0%Z);
    [apply after_view_room_reachable | reflexivity].
Defined.

(** C2, as stated, fails: a [view_room] handled after the grid of a
    group without member rooms creates the sole entry of [rooms], from
    references unused before, and [group_id] still names the group. *)
Lemma group_id_set_with_sole_fresh_entry :
  let w := __onDispatch no_rooms (view_room "!a:example.org")
             after_empty_grid in
  reachable w ∧
  next after_empty_grid = 0 ∧
  rooms (_state w) = [ {| store := 1; dispatcher := 0 |} ] ∧
  currentIndex (_state w) = Some 0%Z ∧
  group_id (_state w) = JStr "+g:example.org" ∧
  group_id (_state w) ≠ JNull.
Proof.
  split; [apply reachable_dispatch, after_empty_grid_reachable|].
  repeat split; try reflexivity. vm_compute. discriminate.
Qed.

Lemma group_id_null_without_grid_witness :
  reachable constructor ∧
  (currentIndex (_state constructor) = None →
   rooms (_state constructor) = [] ∧
   group_id (_state constructor) = JNull) ∧
  (group_id (_state constructor) = JNull →
   ∀ G p, action p = "view_room" →
          group_id (_state (__onDispatch G p constructor)) = JNull) ∧
  (∀ G p, action p = "view_group_grid" →
     payload_group_id p ≠ group_id (_state constructor) →
     group_id (_state (__onDispatch G p constructor))
     = payload_group_id p).
Proof.
  split; [apply reachable_constructor|].
  apply (group_id_null_without_grid initial reduce getRoomId getRoomAlias
           constructor).
  apply reachable_constructor.
Defined.


Lemma view_room_current_only_switches_witness :
  let p := view_room "!a:example.org" in
  let w' := __onDispatch no_rooms p after_grid in
  action p = "view_room" ∧
  matchesRoom getRoomId getRoomAlias p
    (deref after_grid (getCurrentRoomStore after_grid)) = true ∧
  _hasRoom getRoomId getRoomAlias p after_grid = true ∧
  ∃ e,
    rooms (_state after_grid) !! 0 = Some e ∧
    currentIndex (_state w') = Some 0%Z ∧
    rooms (_state w') = rooms (_state after_grid) ∧
    dispatchers w' = dispatchers after_grid ∧
    next w' = next after_grid.
Proof.
  intros p w'.
  assert (Hp : action p = "view_room") by reflexivity.
  assert (Hm : matchesRoom getRoomId getRoomAlias p
                 (deref after_grid (getCurrentRoomStore after_grid))
               = true)
    by (vm_compute; reflexivity).
  assert (Hh : _hasRoom getRoomId getRoomAlias p after_grid = true)
    by (vm_compute; reflexivity).
  split; [exact Hp|]. split; [exact Hm|]. split; [exact Hh|].
  destruct (view_room_current_only_switches initial reduce getRoomId
              getRoomAlias no_rooms p after_grid Hp Hm Hh)
    as (e & _ & He & _ & Hci & Hrooms & _ & Hd & Hn & _).
  exists e. split; [exact He|]. split; [exact Hci|].
  split; [exact Hrooms|]. split; [exact Hd|exact Hn].
Defined.

Lemma view_group_grid_idempotent_witness :
  let p := view_group_grid "+g:example.org" in
  action p = "view_group_grid" ∧
  payload_group_id p = payload_group_id p ∧
  __onDispatch no_rooms p after_grid = after_grid.
Proof.
  intros p. split; [reflexivity|]. split; [reflexivity|].
  apply (view_group_grid_idempotent initial reduce getRoomId getRoomAlias
           two_rooms no_rooms p p constructor);
    reflexivity.
Defined.

Lemma alias_failure_forwarded_to_current_witness :
  action view_by_alias = "view_room" ∧
  truthy (room_id view_by_alias) = false ∧
  truthy (room_alias view_by_alias) = true ∧
  GetRoomIdForAlias view_by_alias
    ∈ trace (__onDispatch no_rooms view_by_alias after_grid) ∧
  _state (_resolveRoomAlias_rejected reduce view_by_alias (JObj 7)
            after_grid) = _state after_grid ∧
  ∃ q : Payload,
    action q = "view_room_error" ∧
    room_id q = JNull ∧
    room_alias q = JStr "#lobby:example.org" ∧
    err q = JObj 7 ∧
    trace (_resolveRoomAlias_rejected reduce view_by_alias (JObj 7)
             after_grid)
    = trace after_grid ++ [PrivateDispatch 0 q].
Proof.
  do 3 (split; [reflexivity|]).
  destruct (alias_failure_forwarded_to_current initial reduce getRoomId
              getRoomAlias no_rooms view_by_alias after_grid
              eq_refl eq_refl eq_refl) as [Hreq Hrej].
  split; [exact Hreq|].
  destruct (Hrej (JObj 7) after_grid)
    as (Hstate & _ & _ & _ & q & Haction & Hid & Halias & Herr & Hcur).
  split; [exact Hstate|].
  exists q. split; [exact Haction|]. split; [exact Hid|].
  split; [exact Halias|]. split; [exact Herr|].
  change (_getCurrentRoom after_grid)
    with (Some {| store := 1; dispatcher := 0 |}) in Hcur.
  exact (proj1 Hcur).
Defined.

End Scenarios.

(** ** Further concrete traces *)

Module MoreScenarios.
Import OpenRoomsStore OpenRoomsStoreFacts SimpleStore.

Lemma after_grid_reachable : reachable after_grid.
Proof. apply reachable_dispatch, reachable_constructor. Qed.

Lemma reachable_entries_wired_witness :
  reachable after_grid ∧
  NoDup (dispatcher <$> rooms (_state after_grid)) ∧
  NoDup (getRoomStores after_grid) ∧
  ∀ e, e ∈ rooms (_state after_grid) →
    dispatchers after_grid !! dispatcher e = Some (Some (store e)) ∧
    is_Some (stores after_grid !! store e) ∧
    dispatcher e < next after_grid ∧ store e < next after_grid.
Proof.
  split; [apply after_grid_reachable|].
  apply (reachable_entries_wired initial reduce getRoomId getRoomAlias
           after_grid after_grid_reachable).
Defined.

Lemma view_room_ends_with_current_witness :
  let p := view_room "!b:example.org" in
  let w' := __onDispatch no_rooms p after_grid in
  action p = "view_room" ∧
  ∃ e before after,
    _getCurrentRoom w' = Some e ∧
    getCurrentRoomStore w' = Some (store e) ∧
    trace w' =
      trace after_grid ++ before ++ [PrivateDispatch (dispatcher e) p]
        ++ after ∧
    (∀ d q, PrivateDispatch d q ∉ before ++ after).
Proof.
  intros p w'. split; [reflexivity|].
  apply (view_room_ends_with_current initial reduce getRoomId
           getRoomAlias no_rooms p after_grid).
  reflexivity.
Defined.

Lemma view_room_creates_sole_entry_witness :
  let p := view_room "!a:example.org" in
  let w' := __onDispatch no_rooms p constructor in
  action p = "view_room" ∧
  _getCurrentRoom constructor = None ∧
  rooms (_state w') = [ {| store := 1; dispatcher := 0 |} ] ∧
  currentIndex (_state w') = Some 0%Z ∧
  stores w' !! 1 = Some (reduce p initial).
Proof.
  intros p w'. split; [reflexivity|]. split; [reflexivity|].
  destruct (view_room_creates_sole_entry initial reduce getRoomId
              getRoomAlias no_rooms p constructor eq_refl eq_refl)
    as (Hrooms & Hci & _ & _ & _ & Hs & _).
  split; [exact Hrooms|]. split; [exact Hci|exact Hs].
Defined.

Lemma view_room_never_tears_down_witness :
  let p := view_room "!b:example.org" in
  let w' := __onDispatch no_rooms p after_grid in
  reachable after_grid ∧
  action p = "view_room" ∧
  group_id (_state w') = group_id (_state after_grid) ∧
  (∀ d token, Unregister d token ∈ trace w' →
              Unregister d token ∈ trace after_grid).
Proof.
  intros p w'. split; [apply after_grid_reachable|].
  split; [reflexivity|].
  destruct (view_room_never_tears_down initial reduce getRoomId
              getRoomAlias no_rooms p after_grid after_grid_reachable
              eq_refl) as (_ & Hgid & _ & Hun).
  split; [exact Hgid|exact Hun].
Defined.

Lemma view_room_switches_to_first_match_witness :
  let p := view_room "!a:example.org" in
  let w' := __onDispatch no_rooms p after_grid in
  action p = "view_room" ∧
  currentIndex (_state after_grid) = Some 0%Z ∧
  matchesRoom getRoomId getRoomAlias p
    (deref after_grid (getCurrentRoomStore after_grid)) = true ∧
  ∃ j, currentIndex (_state w') = Some j ∧ (0 ≤ j ≤ 0)%Z.
Proof.
  intros p w'.
  assert (Hm : matchesRoom getRoomId getRoomAlias p
                 (deref after_grid (getCurrentRoomStore after_grid))
               = true)
    by (vm_compute; reflexivity).
  split; [reflexivity|]. split; [reflexivity|]. split; [exact Hm|].
  destruct (view_room_switches_to_first_match initial reduce getRoomId
              getRoomAlias no_rooms p after_grid 0%Z eq_refl eq_refl Hm)
    as (j & e & Hj & Hle & _).
  exists j. split; [exact Hj|exact Hle].
Defined.

Lemma teardown_leaves_router_empty_witness :
  let w' := __onDispatch no_rooms view_group after_grid in
  (action view_group = "view_my_groups"
   ∨ action view_group = "view_group") ∧
  _state w' = empty_state ∧
  (reachable after_grid →
   ∀ e, e ∈ rooms (_state after_grid) →
        dispatchers w' !! dispatcher e = Some None).
Proof.
  intros w'.
  assert (Hp : action view_group = "view_my_groups"
               ∨ action view_group = "view_group") by (by right).
  split; [exact Hp|].
  destruct (teardown_leaves_router_empty initial reduce getRoomId
              getRoomAlias no_rooms view_group after_grid Hp)
    as (Hst & _ & _ & Hnone).
  split; [exact Hst|exact Hnone].
Defined.

Lemma passthrough_only_forwards_witness :
  let w' := __onDispatch no_rooms will_join after_grid in
  action will_join ∈ passthrough_actions ∧
  _state w' = _state after_grid ∧
  dispatchers w' = dispatchers after_grid ∧
  next w' = next after_grid.
Proof.
  intros w'.
  assert (Hp : action will_join ∈ passthrough_actions) by compute_done.
  split; [exact Hp|].
  destruct (passthrough_only_forwards initial reduce getRoomId
              getRoomAlias no_rooms will_join after_grid Hp)
    as (Hst & _ & Hd & Hn & _).
  split; [exact Hst|]. split; [exact Hd|exact Hn].
Defined.

Lemma other_actions_keep_router_state_witness :
  let w' := __onDispatch no_rooms forward_event after_grid in
  action forward_event ≠ "view_room" ∧
  action forward_event ≠ "view_my_groups" ∧
  action forward_event ≠ "view_group" ∧
  action forward_event ≠ "view_group_grid" ∧
  _state w' = _state after_grid ∧
  dispatchers w' = dispatchers after_grid ∧
  next w' = next after_grid ∧
  dom (stores w') = dom (stores after_grid).
Proof.
  intros w'.
  do 4 (split; [discriminate|]).
  apply (other_actions_keep_router_state initial reduce getRoomId
           getRoomAlias no_rooms forward_event after_grid);
    discriminate.
Defined.


Lemma view_group_grid_unregisters_old_witness :
  let p := view_group_grid "+h:example.org" in
  let w' := __onDispatch no_rooms p after_grid in
  action p = "view_group_grid" ∧
  payload_group_id p ≠ group_id (_state after_grid) ∧
  (∀ e, e ∈ rooms (_state after_grid) → unregistered e ∈ trace w') ∧
  (reachable after_grid →
   ∀ e, e ∈ rooms (_state after_grid) →
     dispatchers w' !! dispatcher e = Some None ∧
     stores w' !! store e = stores after_grid !! store e ∧
     e ∉ rooms (_state w')).
Proof.
  intros p w'.
  assert (Hne : payload_group_id p ≠ group_id (_state after_grid))
    by (vm_compute; discriminate).
  split; [reflexivity|]. split; [exact Hne|].
  apply (view_group_grid_unregisters_old initial reduce getRoomId
           getRoomAlias no_rooms p after_grid eq_refl Hne).
Defined.

End MoreScenarios.

(** ** Further concrete invitations *)

Module MoreInviteScenarios.
Import RoomInvite RoomInviteFacts InviteOrchestratorFacts.

Lemma start_chat_single_address_witness :
  let a := {| address := "@alice:example.org" |} in
  (sample_getAddressType (address a) = Some "mx-user-id" ∧
   ∃ r room, r ∈ sample_getDMRoomsForUserId (address a) ∧
             sample_getRoom r = Some room ∧
             getMyMembership room = "join") ∧
  _onStartChatFinished sample_getAddressType sample_getDMRoomsForUserId
    sample_getRoom true [a]
  = [ShowCreateOrReuse "@alice:example.org"].
Proof.
  intros a.
  assert (Hre : sample_getAddressType (address a) = Some "mx-user-id" ∧
                ∃ r room, r ∈ sample_getDMRoomsForUserId (address a) ∧
                          sample_getRoom r = Some room ∧
                          getMyMembership room = "join").
  { split; [reflexivity|].
    exists "!dm2:example.org",
      {| room_object := {| name := "Alice" |};
         getMyMembership := "join" |}.
    split; [|split; reflexivity]. right. left. }
  split; [exact Hre|].
  exact (proj1 (start_chat_single_address sample_getAddressType
                  sample_getDMRoomsForUserId sample_getRoom a) Hre).
Defined.

Lemma invites_settled_report_witness :
  sample_getRoom "!nowhere:example.org" = None ∧
  (∃ a, get sample_addrs a = Some "error") ∧
  ∃ d : Dialog,
    invites_settled sample_t sample_getRoom sample_null_name_error
      sample_addrs "!nowhere:example.org" (sample_inviter false) []
    = [d] ∧
    component d = "dialogs.ErrorDialog" ∧
    title d = "Failed to invite" ∧
    description d = "Cannot read property 'name' of null".
Proof.
  assert (Hex : ∃ a, get sample_addrs a = Some "error")
    by (exists "bob@example.org"; reflexivity).
  split; [reflexivity|]. split; [exact Hex|].
  destruct (proj2 (proj2 (invites_settled_report sample_t sample_getRoom
                            sample_null_name_error sample_addrs
                            "!nowhere:example.org" (sample_inviter false)
                            [])) eq_refl Hex)
    as (d & Hshown & _ & Hcomponent & Htitle & Hmessage & _).
  exists d. split; [exact Hshown|]. split; [exact Hcomponent|].
  split; [exact Htitle|].
  apply Hmessage; [reflexivity|discriminate].
Defined.

Lemma report_lines_in_order_witness :
  NoDup (Object_keys sample_addrs) ∧
  ¬ (count_errors sample_addrs = 1 ∧ fatal (sample_inviter true) = true) ∧
  ∃ d : Dialog,
    (_showAnyInviteErrors sample_t sample_null_name_error sample_addrs
       (Some sample_room) (sample_inviter true) []).2 = [d] ∧
    description d =
      "bob@example.org: could not invite bob@example.org" +:+
      "[object Object]" +:+
      "@carol:example.org: could not invite @carol:example.org".
Proof.
  assert (Hnd : NoDup (Object_keys sample_addrs)) by compute_done.
  assert (Hcase : ¬ (count_errors sample_addrs = 1
                     ∧ fatal (sample_inviter true) = true))
    by (intros [Hc _]; vm_compute in Hc; discriminate Hc).
  split; [exact Hnd|]. split; [exact Hcase|].
  exact (report_lines_in_order sample_t sample_null_name_error
           sample_addrs (Some sample_room) (sample_inviter true) []
           Hnd Hcase).
Defined.

End MoreInviteScenarios.
